(** * Pulse_Shaping.py: transfer-function model and pulse shaper

    A shallow embedding of [make_transfer_func] and [shape_pulse] of
    [Pulse_Shaping.py].  Python floats are read as real numbers, complex128
    values as pairs of reals, one-dimensional numpy arrays as lists, and a
    raised exception as the [Raise] branch of a result type.  The routines
    of numpy and scipy the module calls ([CubicSpline], [fft], [ifft]) are
    section variables with the part of their documented contract a theorem
    needs as a hypothesis; a reference instance of each is defined below and
    shown to meet that contract.  Module [Binary64] repeats [shape_pulse]
    in IEEE binary64 arithmetic, where a quotient can overflow. *)

From Stdlib Require Import Floats.PrimFloat.
From Stdlib Require Import Reals Lra Lia List ZArith Bool Arith.
From Stdlib Require String.
Import ListNotations.
Open Scope R_scope.

Set Implicit Arguments.

(** ** Complex numbers *)

Module Complex.

Definition C : Type := (R * R)%type.

Definition C0 : C := (0, 0).
Definition C1 : C := (1, 0).
Definition Ci : C := (0, 1).

(** Embedding of a real, as numpy promotes float64 to complex128. *)
Definition RtoC (x : R) : C := (x, 0).

Definition Cplus (a b : C) : C := (fst a + fst b, snd a + snd b).
Definition Copp (a : C) : C := (- fst a, - snd a).
Definition Cminus (a b : C) : C := Cplus a (Copp b).
Definition Cmult (a b : C) : C :=
  (fst a * fst b - snd a * snd b, fst a * snd b + snd a * fst b).

(** Squared modulus and modulus ([np.absolute] on a complex array). *)
Definition Cnorm2 (a : C) : R := fst a * fst a + snd a * snd a.
Definition Cabs (a : C) : R := sqrt (Cnorm2 a).

(** Division over the reals is total: [Cdiv z C0] is [C0], where numpy
    gives inf or nan.  Statements about divided values therefore carry
    [0 <= scaling_limit], under which no zero gain passes the mask. *)
Definition Cinv (a : C) : C := (fst a / Cnorm2 a, - snd a / Cnorm2 a).
Definition Cdiv (a b : C) : C := Cmult a (Cinv b).

(** [np.conjugate]. *)
Definition Cconj (a : C) : C := (fst a, - snd a).

(** Multiplication of a complex number by a real scalar. *)
Definition Cscal (x : R) (a : C) : C := (x * fst a, x * snd a).

(** The point of the unit circle at angle [t]. *)
Definition Cexp (t : R) : C := (cos t, sin t).

End Complex.
Import Complex.

(** ** Comparisons of floats, as booleans *)

Definition Rltb (x y : R) : bool := if Rlt_dec x y then true else false.
Definition Rgtb (x y : R) : bool := Rltb y x.

(** ** Exceptions *)

Inductive exn : Type :=
| IndexError
| ValueError.

Inductive result (A : Type) : Type :=
| Ok (a : A)
| Raise (e : exn).

Arguments Ok {A} a.
Arguments Raise {A} e.

Definition bind {A B : Type} (m : result A) (k : A -> result B) : result B :=
  match m with
  | Ok a => k a
  | Raise e => Raise e
  end.

Notation "x <- m ;; k" := (bind m (fun x => k))
  (at level 61, m at next level, right associativity).

(** ** One-dimensional arrays *)

(** [a[i]] with Python's negative indices; out of range raises IndexError. *)
Definition getitem {A : Type} (a : list A) (i : Z) : result A :=
  let n := Z.of_nat (length a) in
  let j := (if i <? 0 then n + i else i)%Z in
  if ((0 <=? j) && (j <? n))%Z
  then match nth_error a (Z.to_nat j) with
       | Some x => Ok x
       | None => Raise IndexError
       end
  else Raise IndexError.

(** Elementwise binary operation on arrays of one shape. *)
Fixpoint map2 {A B D : Type} (f : A -> B -> D) (a : list A) (b : list B)
  : list D :=
  match a, b with
  | x :: a', y :: b' => f x y :: map2 f a' b'
  | _, _ => []
  end.

Definition logical_or : list bool -> list bool -> list bool := map2 orb.
Definition logical_and : list bool -> list bool -> list bool := map2 andb.

(** [np.where(cond, x, y)] on arrays of one shape. *)
Fixpoint np_where {A : Type} (cond : list bool) (x y : list A) : list A :=
  match cond, x, y with
  | c :: cond', a :: x', b :: y' =>
      (if c then a else b) :: np_where cond' x' y'
  | _, _, _ => []
  end.

(** [np.complex128(np.zeros_like(a))]. *)
Definition zeros_like {A : Type} (a : list A) : list C :=
  map (fun _ => C0) a.

(** ** make_transfer_func *)

Section TransferFunction.

(** [scipy.interpolate.CubicSpline(x, y)]: raises on samples it rejects,
    otherwise gives a function defined on every real (it extrapolates). *)
Variable CubicSpline : list R -> list C -> result (R -> C).

(** The closure [full_transfer_func] over [transfer_func], [upper_limit]
    and [lower_limit]. *)
Definition full_transfer_func (transfer_func : R -> C)
    (upper_limit lower_limit : R) (arr : list R) : list C :=
  let answer := map transfer_func arr in
  let negative := map (fun x => Rltb x 0) arr in
  let out_of_bounds :=
    logical_or (map (fun x => Rltb x (-1 * upper_limit)) arr)
               (map (fun x => Rgtb x upper_limit) arr) in
  let out_of_bounds :=
    logical_or out_of_bounds
      (logical_and (map (fun x => Rltb x lower_limit) arr)
                   (map (fun x => Rgtb x (-1 * lower_limit)) arr)) in
  let answer :=
    np_where negative
      (map Cconj (map transfer_func (map (fun x => -1 * x) arr)))
      answer in
  let answer := np_where out_of_bounds (zeros_like answer) answer in
  answer.

(** The element [full_transfer_func] computes for one frequency [x]:
    the two [np.where] selections read as a conditional. *)
Definition transfer_at (transfer_func : R -> C)
    (upper_limit lower_limit : R) (x : R) : C :=
  if (Rltb x (-1 * upper_limit) || Rgtb x upper_limit)
     || (Rltb x lower_limit && Rgtb x (-1 * lower_limit))
  then C0
  else if Rltb x 0 then Cconj (transfer_func (-1 * x))
  else transfer_func x.

(** Returns [(full_transfer_func, upper_limit, lower_limit)]. *)
Definition make_transfer_func (s21 : list C) (swept_fs : list R)
  : result ((list R -> list C) * R * R) :=
  transfer_func <- CubicSpline swept_fs s21 ;;
  upper_limit <- getitem swept_fs (-1) ;;
  lower_limit <- getitem swept_fs 0 ;;
  Ok (full_transfer_func transfer_func upper_limit lower_limit,
      upper_limit, lower_limit).

End TransferFunction.

(** ** shape_pulse *)

(** [np.arange(lo, hi)] over the integers. *)
Definition arange (lo hi : Z) : list Z :=
  map (fun k => (lo + Z.of_nat k)%Z) (seq 0 (Z.to_nat (hi - lo))).

(** [fftfreq(n, d)]: the bins [0, 1, ..., (n-1)//2, -(n//2), ..., -1],
    each multiplied by [1.0 / (n * d)]. *)
Definition fftfreq (n : nat) (d : R) : list R :=
  let val := 1 / (INR n * d) in
  let N := ((Z.of_nat n - 1) / 2 + 1)%Z in
  let p1 := arange 0 N in
  let p2 := arange (- (Z.of_nat n / 2)) 0 in
  map (fun k => IZR k * val) (p1 ++ p2).

(** Broadcasting of two one-dimensional shapes. *)
Definition broadcast_shape (n m : nat) : option nat :=
  if (n =? m)%nat then Some n
  else if (n =? 1)%nat then Some m
  else if (m =? 1)%nat then Some n
  else None.

(** An array stretched to shape [n]: a one-element array is repeated. *)
Definition broadcast_to {A : Type} (a : list A) (n : nat) : list A :=
  match a with
  | [x] => repeat x n
  | _ => a
  end.

(** The inner loop of a ufunc called with [where=] and [out=]: the
    operation is applied where the mask holds, and elsewhere the element
    of [out] is left as it was. *)
Fixpoint ufunc_where (op : C -> C -> C) (x1 x2 : list C)
    (where_ : list bool) (out : list C) : list C :=
  match x1, x2, where_, out with
  | a :: x1', b :: x2', w :: where', o :: out' =>
      (if w then op a b else o) :: ufunc_where op x1' x2' where' out'
  | _, _, _, _ => []
  end.

(** [np.divide(x1, x2, where=where_, out=out)].  The inputs and the mask
    are broadcast together; [out] is not stretched and must have the
    broadcast shape. *)
Definition np_divide (x1 x2 : list C) (where_ : list bool) (out : list C)
  : result (list C) :=
  match broadcast_shape (length x1) (length x2) with
  | None => Raise ValueError
  | Some s =>
      match broadcast_shape s (length where_) with
      | None => Raise ValueError
      | Some s' =>
          if (s' =? length out)%nat
          then Ok (ufunc_where Cdiv (broadcast_to x1 s') (broadcast_to x2 s')
                     (broadcast_to where_ s') out)
          else Raise ValueError
      end
  end.

Section PulseShaper.

(** [scipy.fft.fft] and [scipy.fft.ifft] on one-dimensional input. *)
Variables fft ifft : list C -> result (list C).

Definition shape_pulse (pulse : list C) (time_int : list R)
    (transfer_func : list R -> list C) (scaling_limit : R)
  : result (list C) :=
  t1 <- getitem time_int 1 ;;
  t0 <- getitem time_int 0 ;;
  let dt := t1 - t0 in
  let freqs := fftfreq (length pulse) dt in
  let transfer_array := transfer_func freqs in
  P <- fft pulse ;;
  S <- np_divide P transfer_array
         (map (fun h => Rgtb (Cabs h) scaling_limit) transfer_array)
         (zeros_like transfer_array) ;;
  ifft S.

End PulseShaper.

(** ** shape_pulse in binary64 arithmetic *)

Module Binary64.

Definition complex128 : Type := (float * float)%type.

Definition zero : complex128 := (0%float, 0%float).

(** The default [scaling_limit], the float nearest to 0.1. *)
Definition default_scaling_limit : float := 0x1.999999999999ap-4%float.

(** An integer as a float (exact below 2^53). *)
Fixpoint of_pos (p : positive) : float :=
  match p with
  | xH => 1%float
  | xO q => (2 * of_pos q)%float
  | xI q => (2 * of_pos q + 1)%float
  end.

Definition of_Z (k : Z) : float :=
  match k with
  | Z0 => 0%float
  | Zpos p => of_pos p
  | Zneg p => (- of_pos p)%float
  end.

Definition fftfreq (n : nat) (d : float) : list float :=
  let val := (1 / (of_Z (Z.of_nat n) * d))%float in
  let N := ((Z.of_nat n - 1) / 2 + 1)%Z in
  let p1 := arange 0 N in
  let p2 := arange (- (Z.of_nat n / 2)) 0 in
  map (fun k => (of_Z k * val)%float) (p1 ++ p2).

(** [np.absolute] of a complex number, the hypotenuse computed without
    intermediate overflow.  It is exact when one component is zero. *)
Definition absolute (z : complex128) : float :=
  let a := PrimFloat.abs (fst z) in
  let b := PrimFloat.abs (snd z) in
  let hi := if PrimFloat.ltb a b then b else a in
  let lo := if PrimFloat.ltb a b then a else b in
  if PrimFloat.eqb lo 0 then hi
  else (hi * PrimFloat.sqrt (1 + (lo / hi) * (lo / hi)))%float.

(** Complex division as numpy's inner loop does it: scaled by the
    component of the divisor that is larger in magnitude; a divisor
    [0+0j] gives inf or nan. *)
Definition divide (x1 x2 : complex128) : complex128 :=
  let in1r := fst x1 in
  let in1i := snd x1 in
  let in2r := fst x2 in
  let in2i := snd x2 in
  let in2r_abs := PrimFloat.abs in2r in
  let in2i_abs := PrimFloat.abs in2i in
  if PrimFloat.leb in2i_abs in2r_abs then
    if PrimFloat.eqb in2r_abs 0 && PrimFloat.eqb in2i_abs 0
    then ((in1r / in2r_abs)%float, (in1i / in2r_abs)%float)
    else
      let rat := (in2i / in2r)%float in
      let scl := (1 / (in2r + in2i * rat))%float in
      (((in1r + in1i * rat) * scl)%float, ((in1i - in1r * rat) * scl)%float)
  else
    let rat := (in2r / in2i)%float in
    let scl := (1 / (in2i + in2r * rat))%float in
    (((in1r * rat + in1i) * scl)%float, ((in1i * rat - in1r) * scl)%float).

Fixpoint ufunc_where (op : complex128 -> complex128 -> complex128)
    (x1 x2 : list complex128) (where_ : list bool) (out : list complex128)
  : list complex128 :=
  match x1, x2, where_, out with
  | a :: x1', b :: x2', w :: where', o :: out' =>
      (if w then op a b else o) :: ufunc_where op x1' x2' where' out'
  | _, _, _, _ => []
  end.

Definition np_divide (x1 x2 : list complex128) (where_ : list bool)
    (out : list complex128) : result (list complex128) :=
  match broadcast_shape (length x1) (length x2) with
  | None => Raise ValueError
  | Some s =>
      match broadcast_shape s (length where_) with
      | None => Raise ValueError
      | Some s' =>
          if (s' =? length out)%nat
          then Ok (ufunc_where divide (broadcast_to x1 s') (broadcast_to x2 s')
                     (broadcast_to where_ s') out)
          else Raise ValueError
      end
  end.

Section PulseShaper.

Variables fft ifft : list complex128 -> result (list complex128).

Definition shape_pulse (pulse : list complex128) (time_int : list float)
    (transfer_func : list float -> list complex128) (scaling_limit : float)
  : result (list complex128) :=
  t1 <- getitem time_int 1 ;;
  t0 <- getitem time_int 0 ;;
  let dt := (t1 - t0)%float in
  let freqs := fftfreq (length pulse) dt in
  let transfer_array := transfer_func freqs in
  P <- fft pulse ;;
  S <- np_divide P transfer_array
         (map (fun h => PrimFloat.ltb scaling_limit (absolute h))
            transfer_array)
         (map (fun _ => zero) transfer_array) ;;
  ifft S.

End PulseShaper.

Definition cadd (a b : complex128) : complex128 :=
  ((fst a + fst b)%float, (snd a + snd b)%float).

Definition csub (a b : complex128) : complex128 :=
  ((fst a - fst b)%float, (snd a - snd b)%float).

Definition cscale (c : float) (a : complex128) : complex128 :=
  ((fst a * c)%float, (snd a * c)%float).

(** The transforms of one and of two samples, which need no twiddle
    factor: the sum and the difference, halved by the inverse.  Longer
    arrays are outside this instance and are refused. *)
Definition fft_ref (x : list complex128) : result (list complex128) :=
  match x with
  | [a] => Ok [a]
  | [a; b] => Ok [cadd a b; csub a b]
  | _ => Raise ValueError
  end.

Definition ifft_ref (x : list complex128) : result (list complex128) :=
  match x with
  | [a] => Ok [a]
  | [a; b] => Ok [cscale 0.5 (cadd a b); cscale 0.5 (csub a b)]
  | _ => Raise ValueError
  end.

End Binary64.

(** ** read_transfer_func *)

(** What [read_transfer_func] reads of a [skrf.Network]: the scattering
    array [s], of shape (nfreq, nports, nports), and the frequency array
    [f]. *)
Module skrf.

Record ndarray3 : Type := {
  nfreq : nat;
  nports : nat;
  entry : nat -> nat -> nat -> C
}.

Record Network : Type := {
  s : ndarray3;
  f : list R
}.

End skrf.

(** [a[:, i, j]]: an integer index outside its axis raises IndexError,
    also when the first axis is empty. *)
Definition slice_ports (a : skrf.ndarray3) (i j : nat) : result (list C) :=
  if ((i <? skrf.nports a) && (j <? skrf.nports a))%nat
  then Ok (map (fun k => skrf.entry a k i j) (seq 0 (skrf.nfreq a)))
  else Raise IndexError.

Section Reader.

(** [Network(filename)]: the touchstone reader. *)
Variable Network : String.string -> result skrf.Network.

(** Returns [(s21, swept_fs)]. *)
Definition read_transfer_func (filename : String.string)
  : result (list C * list R) :=
  net <- Network filename ;;
  s21 <- slice_ports (skrf.s net) 1 0 ;;
  let swept_fs := skrf.f net in
  Ok (s21, swept_fs).

End Reader.

(** ** Reference instances of the library routines *)

(** What [CubicSpline] checks of its input: at least two abscissae, as many
    ordinates as abscissae, abscissae strictly increasing. *)
Fixpoint strictly_increasing (x : list R) : bool :=
  match x with
  | a :: ((b :: _) as x') => Rltb a b && strictly_increasing x'
  | _ => true
  end.

Definition spline_accepts (x : list R) (y : list C) : bool :=
  (2 <=? length x)%nat && (length y =? length x)%nat && strictly_increasing x.

(** The line through [(x0, y0)] and [(x1, y1)]. *)
Definition line (x0 : R) (y0 : C) (x1 : R) (y1 : C) (t : R) : C :=
  Cplus y0 (Cscal ((t - x0) / (x1 - x0)) (Cminus y1 y0)).

(** A piecewise-linear interpolant through the samples, continued along
    its first and last segment outside them.  Through two samples it is
    the straight line that [CubicSpline] also returns for two samples. *)
Fixpoint interpolant (x : list R) (y : list C) (t : R) : C :=
  match x, y with
  | x0 :: x', y0 :: y' =>
      match x', y' with
      | x1 :: x'', y1 :: _ =>
          match x'' with
          | [] => line x0 y0 x1 y1 t
          | _ => if Rle_dec t x1 then line x0 y0 x1 y1 t
                 else interpolant x' y' t
          end
      | _, _ => y0
      end
  | _, _ => C0
  end.

(** An interpolation routine with the input checks of [CubicSpline]. *)
Definition spline_ref (x : list R) (y : list C) : result (R -> C) :=
  if spline_accepts x y then Ok (interpolant x y) else Raise ValueError.

Fixpoint Csum (l : list C) : C :=
  match l with
  | [] => C0
  | z :: l' => Cplus z (Csum l')
  end.

(** Bin [k] of the discrete Fourier sum of [x] with the sign of the
    exponent given: the sum over [n] of [x[n] * exp(sign * 2 pi i k n / N)]. *)
Definition dft_bin (sign : R) (x : list C) (k : nat) : C :=
  Csum (map (fun n =>
               Cmult (nth n x C0)
                     (Cexp (sign * (2 * PI * INR k * INR n / INR (length x)))))
            (seq 0 (length x))).

Definition dft (x : list C) : list C :=
  map (dft_bin (-1) x) (seq 0 (length x)).

Definition idft (x : list C) : list C :=
  map (fun k => Cscal (/ INR (length x)) (dft_bin 1 x k)) (seq 0 (length x)).

(** The transforms as scipy defines them; an empty input is refused. *)
Definition fft_ref (x : list C) : result (list C) :=
  match x with
  | [] => Raise ValueError
  | _ => Ok (dft x)
  end.

Definition ifft_ref (x : list C) : result (list C) :=
  match x with
  | [] => Raise ValueError
  | _ => Ok (idft x)
  end.

(** A network of [n] ports measured at the frequencies 0 and 1, with
    [S[k][i][j] = 1] for [i > j] and [i] (the imaginary unit) otherwise,
    and a reader that returns it for every file name. *)
Definition network_ref (n : nat) : skrf.Network :=
  {| skrf.s := {| skrf.nfreq := 2;
                  skrf.nports := n;
                  skrf.entry := fun _ i j => if (j <? i)%nat then C1 else Ci |};
     skrf.f := [0; 1] |}.

Definition Network_ref (n : nat) (filename : String.string)
  : result skrf.Network :=
  Ok (network_ref n).

(** ** Contracts of the library routines *)

Section Contracts.

Variable CubicSpline : list R -> list C -> result (R -> C).

(** Samples that fail the input checks raise ValueError. *)
Definition rejects_invalid : Prop :=
  forall x y, spline_accepts x y = false -> CubicSpline x y = Raise ValueError.

(** Samples that pass them give an interpolant. *)
Definition accepts_valid : Prop :=
  forall x y, spline_accepts x y = true -> exists S, CubicSpline x y = Ok S.

(** An interpolant is only built from samples that pass the checks, and
    it takes the sampled value at every abscissa. *)
Definition interpolates : Prop :=
  forall x y S, CubicSpline x y = Ok S ->
    spline_accepts x y = true /\
    forall i xi yi,
      nth_error x i = Some xi -> nth_error y i = Some yi -> S xi = yi.

Variables fft ifft : list C -> result (list C).

(** A transform of a non-empty array succeeds and keeps its length. *)
Definition keeps_length (f : list C -> result (list C)) : Prop :=
  forall x, x <> [] -> exists y, f x = Ok y /\ length y = length x.

(** A transform of a sum of two arrays of one length is the sum of their
    transforms. *)
Definition additive (f : list C -> result (list C)) : Prop :=
  forall x y fx fy,
    length x = length y -> f x = Ok fx -> f y = Ok fy ->
    f (map2 Cplus x y) = Ok (map2 Cplus fx fy).

(** [ifft] undoes [fft]. *)
Definition inverse_pair : Prop :=
  forall x y, fft x = Ok y -> ifft y = Ok x.

End Contracts.


(** * Properties *)

(** ** Comparisons *)

Lemma Rltb_true (x y : R) : Rltb x y = true <-> x < y.
Proof.
  unfold Rltb; destruct (Rlt_dec x y); split; intros; auto; discriminate.
Qed.

Lemma Rltb_false (x y : R) : Rltb x y = false <-> y <= x.
Proof.
  unfold Rltb; destruct (Rlt_dec x y); split; intros; auto;
    try discriminate; lra.
Qed.

(** Decides every comparison of the goal and prunes the branches that
    contradict the arithmetic of the context. *)
Ltac cases_Rltb :=
  unfold Rgtb in *;
  repeat match goal with
         | |- context [Rltb ?a ?b] =>
             let H := fresh "H" in
             destruct (Rltb a b) eqn:H;
             [apply Rltb_true in H | apply Rltb_false in H]
         end;
  simpl; try reflexivity; try lra.

(** ** Complex arithmetic *)

Lemma C_eq (a b : C) : fst a = fst b -> snd a = snd b -> a = b.
Proof. destruct a, b; simpl; intros; subst; reflexivity. Qed.

Lemma Cconj_conj (z : C) : Cconj (Cconj z) = z.
Proof. apply C_eq; simpl; lra. Qed.

Lemma Cconj_0 : Cconj C0 = C0.
Proof. apply C_eq; simpl; lra. Qed.

Lemma Cabs_0 : Cabs C0 = 0.
Proof.
  unfold Cabs, Cnorm2, C0; simpl.
  replace (0 * 0 + 0 * 0) with 0 by lra. apply sqrt_0.
Qed.

Lemma Cabs_1 : Cabs C1 = 1.
Proof.
  unfold Cabs, Cnorm2, C1; simpl.
  replace (1 * 1 + 0 * 0) with 1 by lra. apply sqrt_1.
Qed.

Lemma Cdiv_1 (z : C) : Cdiv z C1 = z.
Proof.
  unfold Cdiv, Cinv, Cmult, Cnorm2, C1; simpl.
  apply C_eq; simpl; field.
Qed.

(** ** Indexing *)

Lemma getitem_0 (A : Type) (a : list A) (x : A) :
  getitem (x :: a) 0 = Ok x.
Proof.
  unfold getitem. cbn [length].
  replace ((0 <? 0)%Z) with false by reflexivity.
  replace ((0 <=? 0)%Z) with true by reflexivity.
  replace ((0 <? Z.of_nat (S (length a)))%Z) with true
    by (symmetry; apply Z.ltb_lt; lia).
  reflexivity.
Qed.

Lemma getitem_1 (A : Type) (a : list A) (x y : A) :
  getitem (x :: y :: a) 1 = Ok y.
Proof.
  unfold getitem. cbn [length].
  replace ((1 <? 0)%Z) with false by reflexivity.
  replace ((0 <=? 1)%Z) with true by reflexivity.
  replace ((1 <? Z.of_nat (S (S (length a))))%Z) with true
    by (symmetry; apply Z.ltb_lt; lia).
  reflexivity.
Qed.

Lemma getitem_last (A : Type) (a : list A) (x d : A) :
  getitem (x :: a) (-1) = Ok (last (x :: a) d).
Proof.
  unfold getitem.
  replace ((-1 <? 0)%Z) with true by reflexivity.
  set (n := Z.of_nat (length (x :: a))).
  assert (Hn : (n = Z.of_nat (length a) + 1)%Z)
    by (unfold n; cbn [length]; lia).
  replace ((0 <=? n + -1)%Z) with true by (symmetry; apply Z.leb_le; lia).
  replace ((n + -1 <? n)%Z) with true by (symmetry; apply Z.ltb_lt; lia).
  cbn [andb].
  replace (Z.to_nat (n + -1)) with (length a) by lia.
  clear n Hn. revert x.
  induction a as [|y a IH]; intros x; [reflexivity|].
  cbn [length nth_error]. rewrite (IH y). reflexivity.
Qed.

Lemma getitem_short (A : Type) (a : list A) :
  (length a < 2)%nat -> getitem a 1 = Raise IndexError.
Proof.
  intros H. unfold getitem.
  replace ((1 <? 0)%Z) with false by reflexivity.
  replace ((1 <? Z.of_nat (length a))%Z) with false
    by (symmetry; apply Z.ltb_ge; lia).
  rewrite andb_false_r. reflexivity.
Qed.

(** ** full_transfer_func, element by element *)

Lemma full_transfer_func_map (tf : R -> C) (U L : R) (arr : list R) :
  full_transfer_func tf U L arr = map (transfer_at tf U L) arr.
Proof.
  unfold full_transfer_func, logical_or, logical_and, zeros_like.
  induction arr as [|x arr IH]; [reflexivity|].
  cbn [map map2 np_where]. rewrite IH. reflexivity.
Qed.

Lemma full_transfer_func_nth (tf : R -> C) (U L : R) (arr : list R)
    (k : nat) (f : R) :
  nth_error arr k = Some f ->
  nth_error (full_transfer_func tf U L arr) k = Some (transfer_at tf U L f).
Proof.
  intros H. rewrite full_transfer_func_map.
  rewrite nth_error_map, H. reflexivity.
Qed.

Lemma transfer_at_out_of_band (tf : R -> C) (U L f : R) :
  Rabs f > U \/ (- L < f < L) -> transfer_at tf U L f = C0.
Proof.
  intros H. unfold transfer_at.
  destruct H as [H | H].
  - unfold Rabs in H. destruct (Rcase_abs f); cases_Rltb.
  - cases_Rltb.
Qed.

Lemma transfer_at_opp (tf : R -> C) (U L f : R) :
  f <> 0 -> transfer_at tf U L (- f) = Cconj (transfer_at tf U L f).
Proof.
  intros Hf. unfold transfer_at.
  cases_Rltb; rewrite ?Cconj_0, ?Cconj_conj; try reflexivity;
    try (f_equal; f_equal; lra); try (f_equal; lra).
Qed.

Lemma transfer_at_in_band (tf : R -> C) (U L f : R) :
  0 <= L -> L <= f <= U -> transfer_at tf U L f = tf f.
Proof.
  intros HL Hf. unfold transfer_at. cases_Rltb.
Qed.

Lemma transfer_at_0 (tf : R -> C) (U L : R) :
  L <= 0 <= U -> transfer_at tf U L (- 0) = tf 0.
Proof.
  intros H. unfold transfer_at. rewrite Ropp_0. cases_Rltb.
Qed.

(** ** Strictly increasing sample frequencies *)

Lemma strictly_increasing_cons (a : R) (x : list R) :
  strictly_increasing (a :: x) = true ->
  strictly_increasing x = true /\ (forall b, In b x -> a < b).
Proof.
  revert a. induction x as [|b x IH]; intros a H.
  - split; [reflexivity | intros b []].
  - cbn [strictly_increasing] in H. apply andb_true_iff in H.
    destruct H as [Hab Hx]. apply Rltb_true in Hab.
    split; [exact Hx|].
    intros c [Hc | Hc]; [subst; exact Hab|].
    destruct (IH b Hx) as [_ Hb]. specialize (Hb c Hc). lra.
Qed.

Lemma strictly_increasing_NoDup (x : list R) :
  strictly_increasing x = true -> NoDup x.
Proof.
  induction x as [|a x IH]; intros H; [constructor|].
  destruct (strictly_increasing_cons a x H) as [Hx Ha].
  constructor; [|auto].
  intros Hin. specialize (Ha a Hin). lra.
Qed.

Lemma strictly_increasing_last (a : R) (x : list R) :
  strictly_increasing (a :: x) = true -> a <= last (a :: x) 0.
Proof.
  revert a. induction x as [|b x IH]; intros a H; [simpl; lra|].
  destruct (strictly_increasing_cons a (b :: x) H) as [Hx Ha].
  specialize (IH b Hx). specialize (Ha b (or_introl eq_refl)).
  change (last (a :: b :: x) 0) with (last (b :: x) 0). lra.
Qed.

Lemma strictly_increasing_bounds (x : list R) (i : nat) (f : R) :
  strictly_increasing x = true -> nth_error x i = Some f ->
  hd 0 x <= f <= last x 0.
Proof.
  revert i. induction x as [|a x IH]; intros i H Hi.
  - destruct i; discriminate.
  - destruct (strictly_increasing_cons a x H) as [Hx Ha].
    pose proof (strictly_increasing_last a x H) as Hl.
    destruct i as [|i]; cbn [nth_error] in Hi.
    + injection Hi as <-. cbn [hd]. lra.
    + pose proof (nth_error_In _ _ Hi) as Hin.
      specialize (Ha f Hin).
      destruct x as [|b x]; [destruct i; discriminate|].
      specialize (IH i Hx Hi).
      change (last (a :: b :: x) 0) with (last (b :: x) 0).
      cbn [hd] in *. lra.
Qed.

(** ** make_transfer_func *)

Section TransferFunctionFacts.

Variable CubicSpline : list R -> list C -> result (R -> C).

Lemma make_transfer_func_raise (s21 : list C) (swept_fs : list R) (e : exn) :
  CubicSpline swept_fs s21 = Raise e ->
  make_transfer_func CubicSpline s21 swept_fs = Raise e.
Proof. intros H. unfold make_transfer_func. rewrite H. reflexivity. Qed.

Lemma make_transfer_func_ok (s21 : list C) (swept_fs : list R) (S : R -> C) :
  CubicSpline swept_fs s21 = Ok S -> swept_fs <> [] ->
  make_transfer_func CubicSpline s21 swept_fs =
    Ok (full_transfer_func S (last swept_fs 0) (hd 0 swept_fs),
        last swept_fs 0, hd 0 swept_fs).
Proof.
  intros H Hne. unfold make_transfer_func. rewrite H. cbn [bind].
  destruct swept_fs as [|a x]; [congruence|].
  rewrite (getitem_last x a 0). cbn [bind].
  rewrite getitem_0. reflexivity.
Qed.

Lemma make_transfer_func_inv (s21 : list C) (swept_fs : list R)
    (model : list R -> list C) (u l : R) :
  make_transfer_func CubicSpline s21 swept_fs = Ok (model, u, l) ->
  exists S, CubicSpline swept_fs s21 = Ok S /\
            u = last swept_fs 0 /\ l = hd 0 swept_fs /\
            model = full_transfer_func S u l.
Proof.
  unfold make_transfer_func.
  destruct (CubicSpline swept_fs s21) as [S|e] eqn:HS; [|discriminate].
  cbn [bind]. destruct swept_fs as [|a x]; [discriminate|].
  rewrite (getitem_last x a 0). cbn [bind]. rewrite getitem_0.
  cbn [bind]. intros H. injection H as <- <- <-.
  exists S. auto.
Qed.

End TransferFunctionFacts.

(** ** The reference interpolation routine *)

Lemma spline_accepts_spec (x : list R) (y : list C) :
  spline_accepts x y = true <->
  (2 <= length x)%nat /\ length y = length x /\ strictly_increasing x = true.
Proof.
  unfold spline_accepts. rewrite !andb_true_iff, Nat.leb_le, Nat.eqb_eq.
  tauto.
Qed.

Lemma line_left (x0 x1 : R) (y0 y1 : C) : line x0 y0 x1 y1 x0 = y0.
Proof.
  unfold line, Cplus, Cscal, Cminus, Cplus, Copp. apply C_eq; simpl.
  - unfold Rdiv. replace (x0 - x0) with 0 by lra. lra.
  - unfold Rdiv. replace (x0 - x0) with 0 by lra. lra.
Qed.

Lemma line_right (x0 x1 : R) (y0 y1 : C) :
  x0 < x1 -> line x0 y0 x1 y1 x1 = y1.
Proof.
  intros H. unfold line, Cplus, Cscal, Cminus, Cplus, Copp.
  apply C_eq; simpl; field; lra.
Qed.

Lemma interpolant_nth (x : list R) (y : list C) (i : nat) (xi : R) (yi : C) :
  spline_accepts x y = true ->
  nth_error x i = Some xi -> nth_error y i = Some yi ->
  interpolant x y xi = yi.
Proof.
  intros Hacc. apply spline_accepts_spec in Hacc.
  destruct Hacc as (Hlen & Hy & Hsi).
  revert y i Hlen Hy Hsi.
  induction x as [|x0 x IH]; intros y i Hlen Hy Hsi Hxi Hyi.
  - simpl in Hlen; lia.
  - destruct y as [|y0 y]; [discriminate|].
    destruct x as [|x1 x]; [simpl in Hlen; lia|].
    destruct y as [|y1 y]; [discriminate|].
    destruct (strictly_increasing_cons x0 (x1 :: x) Hsi) as [Hsi' Hlt].
    pose proof (Hlt x1 (or_introl eq_refl)) as H01.
    cbn [interpolant].
    destruct i as [|[|i]]; cbn [nth_error] in Hxi, Hyi.
    + injection Hxi as <-. injection Hyi as <-.
      destruct x; [apply line_left|].
      destruct (Rle_dec x0 x1); [apply line_left | lra].
    + injection Hxi as <-. injection Hyi as <-.
      destruct x; [apply line_right; lra|].
      destruct (Rle_dec x1 x1); [apply line_right; lra | lra].
    + destruct x as [|x2 x]; [destruct i; discriminate|].
      assert (Hgt : x1 < xi).
      { destruct (strictly_increasing_cons x1 (x2 :: x) Hsi') as [_ H1].
        apply H1. apply (nth_error_In _ i). exact Hxi. }
      destruct (Rle_dec xi x1); [lra|].
      apply (IH (y1 :: y) (S i)); auto; simpl in *; lia.
Qed.

Lemma spline_ref_rejects (x : list R) (y : list C) :
  spline_accepts x y = false -> spline_ref x y = Raise ValueError.
Proof. intros H. unfold spline_ref. rewrite H. reflexivity. Qed.

Lemma spline_ref_accepts (x : list R) (y : list C) :
  spline_accepts x y = true -> exists S, spline_ref x y = Ok S.
Proof. intros H. unfold spline_ref. rewrite H. eauto. Qed.

Lemma spline_ref_interpolates (x : list R) (y : list C) (S : R -> C) :
  spline_ref x y = Ok S ->
  spline_accepts x y = true /\
  forall i xi yi,
    nth_error x i = Some xi -> nth_error y i = Some yi -> S xi = yi.
Proof.
  unfold spline_ref. destruct (spline_accepts x y) eqn:H; [|discriminate].
  intros E. injection E as <-. split; [reflexivity|].
  intros i xi yi. apply interpolant_nth. exact H.
Qed.

Lemma spline_accepts_pair (a b : R) (y0 y1 : C) :
  a < b -> spline_accepts [a; b] [y0; y1] = true.
Proof.
  intros H. apply spline_accepts_spec. repeat split; auto.
  cbn [strictly_increasing]. apply Rltb_true in H. rewrite H. reflexivity.
Qed.

Lemma make_transfer_func_pair (a b : R) (y0 y1 : C) :
  a < b ->
  make_transfer_func spline_ref [y0; y1] [a; b] =
    Ok (full_transfer_func (interpolant [a; b] [y0; y1]) b a, b, a).
Proof.
  intros H.
  apply (make_transfer_func_ok spline_ref [y0; y1] (swept_fs := [a; b])).
  - unfold spline_ref. rewrite (spline_accepts_pair y0 y1 H). reflexivity.
  - discriminate.
Qed.

Lemma Rabs_le_1_0 : Rabs 0 <= 1.
Proof. rewrite Rabs_R0. lra. Qed.

Lemma Cconj_Ci_neq : Cconj Ci <> Ci.
Proof.
  unfold Cconj, Ci; simpl. intros H. injection H as H. lra.
Qed.

(** The model built from the responses [i, 1] at the frequencies [0, 1],
    evaluated at [-0]: the frequency is not negative, so the response at
    [0] is returned as it is. *)
Lemma model_at_minus_zero :
  full_transfer_func (interpolant [0; 1] [Ci; C1]) 1 0 [- 0] = [Ci].
Proof.
  rewrite full_transfer_func_map. cbn [map]. f_equal.
  rewrite transfer_at_0 by lra.
  apply (interpolant_nth [0; 1] [Ci; C1] 0).
  - apply spline_accepts_pair; lra.
  - reflexivity.
  - reflexivity.
Qed.

Lemma model_at_zero :
  full_transfer_func (interpolant [0; 1] [Ci; C1]) 1 0 [0] = [Ci].
Proof.
  rewrite <- model_at_minus_zero. rewrite Ropp_0. reflexivity.
Qed.

(** ** The frequency grid and the masked division *)

Lemma arange_length (lo hi : Z) : length (arange lo hi) = Z.to_nat (hi - lo).
Proof. unfold arange. rewrite length_map, length_seq. reflexivity. Qed.

Lemma fftfreq_length (n : nat) (d : R) : length (fftfreq n d) = n.
Proof.
  unfold fftfreq. rewrite length_map, length_app, !arange_length.
  pose proof (Z.div_mod (Z.of_nat n - 1) 2 ltac:(lia)) as H1.
  pose proof (Z.mod_pos_bound (Z.of_nat n - 1) 2 ltac:(lia)) as H2.
  pose proof (Z.div_mod (Z.of_nat n) 2 ltac:(lia)) as H3.
  pose proof (Z.mod_pos_bound (Z.of_nat n) 2 ltac:(lia)) as H4.
  lia.
Qed.

Lemma broadcast_shape_same (n : nat) : broadcast_shape n n = Some n.
Proof. unfold broadcast_shape. rewrite Nat.eqb_refl. reflexivity. Qed.

Lemma broadcast_to_same (A : Type) (a : list A) :
  broadcast_to a (length a) = a.
Proof. destruct a as [|x [|y a]]; reflexivity. Qed.

Lemma np_divide_same_shape (x1 x2 : list C) (where_ : list bool)
    (out : list C) :
  length x2 = length x1 -> length where_ = length x1 ->
  length out = length x1 ->
  np_divide x1 x2 where_ out = Ok (ufunc_where Cdiv x1 x2 where_ out).
Proof.
  intros H2 Hw Ho. unfold np_divide.
  rewrite H2, broadcast_shape_same, Hw, broadcast_shape_same, Ho.
  rewrite Nat.eqb_refl.
  rewrite broadcast_to_same.
  rewrite <- H2 at 1. rewrite broadcast_to_same.
  rewrite <- Hw. rewrite broadcast_to_same. reflexivity.
Qed.

Lemma ufunc_where_length (op : C -> C -> C) (x1 x2 : list C)
    (where_ : list bool) (out : list C) :
  length x2 = length x1 -> length where_ = length x1 ->
  length out = length x1 ->
  length (ufunc_where op x1 x2 where_ out) = length x1.
Proof.
  revert x2 where_ out.
  induction x1 as [|a x1 IH]; intros [|b x2] [|w wh] [|o out];
    simpl; intros; try discriminate; try reflexivity.
  f_equal. apply IH; lia.
Qed.

(** Bin [k] of a masked division whose mask is [|h| > limit] and whose
    output array starts as zeros. *)
Lemma ufunc_where_nth (lim : R) (P H : list C) (k : nat) :
  length H = length P -> (k < length P)%nat ->
  nth k (ufunc_where Cdiv P H (map (fun h => Rgtb (Cabs h) lim) H)
           (zeros_like H)) C0 =
  if Rgtb (Cabs (nth k H C0)) lim then Cdiv (nth k P C0) (nth k H C0)
  else C0.
Proof.
  revert H k. unfold zeros_like.
  induction P as [|a P IH]; intros [|b H] k Hlen Hk;
    simpl in *; try lia.
  destruct k as [|k]; [reflexivity|].
  apply IH; lia.
Qed.

Lemma ufunc_where_unit_gain (lim : R) (P : list C) (fs : list R) :
  lim < 1 -> length fs = length P ->
  let H := map (fun _ => C1) fs in
  ufunc_where Cdiv P H (map (fun h => Rgtb (Cabs h) lim) H) (zeros_like H)
  = P.
Proof.
  intros Hlim. revert fs. unfold zeros_like.
  induction P as [|a P IH]; intros [|f fs] Hlen; simpl in *;
    try discriminate; try reflexivity.
  rewrite Cabs_1. unfold Rgtb.
  replace (Rltb lim 1) with true by (symmetry; apply Rltb_true; lra).
  rewrite Cdiv_1. f_equal. apply IH. lia.
Qed.

Lemma Cabs_gt_nonzero (lim : R) (h : C) : 0 < lim -> lim < Cabs h -> h <> C0.
Proof.
  intros Hl Hh E. subst h. rewrite Cabs_0 in Hh. lra.
Qed.

(** ** shape_pulse *)

Section PulseShaperFacts.

Variables fft ifft : list C -> result (list C).

(** Only the first two entries of the time axis are read. *)
Lemma shape_pulse_time_axis (pulse : list C) (t0 t1 : R) (rest : list R)
    (tf : list R -> list C) (lim : R) :
  shape_pulse fft ifft pulse (t0 :: t1 :: rest) tf lim =
  (let H := tf (fftfreq (length pulse) (t1 - t0)) in
   P <- fft pulse ;;
   S <- np_divide P H (map (fun h => Rgtb (Cabs h) lim) H) (zeros_like H) ;;
   ifft S).
Proof.
  unfold shape_pulse. rewrite getitem_1. cbn [bind].
  rewrite getitem_0. reflexivity.
Qed.

Lemma time_axis_split (time_int : list R) :
  (2 <= length time_int)%nat ->
  exists rest,
    time_int = nth 0 time_int 0 :: nth 1 time_int 0 :: rest.
Proof.
  destruct time_int as [|t0 [|t1 rest]]; simpl; try lia.
  intros _. exists rest. reflexivity.
Qed.

(** The spectrum handed to [ifft], when the gain array has one entry per
    bin. *)
Lemma shape_pulse_spectrum (pulse : list C) (time_int : list R)
    (tf : list R -> list C) (lim : R) (P : list C) :
  (2 <= length time_int)%nat ->
  fft pulse = Ok P -> length P = length pulse ->
  let H := tf (fftfreq (length pulse)
                 (nth 1 time_int 0 - nth 0 time_int 0)) in
  length H = length pulse ->
  shape_pulse fft ifft pulse time_int tf lim =
  ifft (ufunc_where Cdiv P H (map (fun h => Rgtb (Cabs h) lim) H)
          (zeros_like H)).
Proof.
  intros Ht HP HlenP H HlenH.
  destruct (time_axis_split time_int Ht) as [rest Hsplit].
  rewrite Hsplit at 1. rewrite shape_pulse_time_axis.
  fold H. cbv zeta. rewrite HP. cbn [bind].
  rewrite np_divide_same_shape; [reflexivity | | |].
  - congruence.
  - rewrite length_map. congruence.
  - unfold zeros_like. rewrite length_map. congruence.
Qed.

Lemma shape_pulse_returns (pulse : list C) (time_int : list R)
    (tf : list R -> list C) (lim : R) :
  keeps_length fft -> keeps_length ifft ->
  pulse <> [] -> (2 <= length time_int)%nat ->
  length (tf (fftfreq (length pulse)
                (nth 1 time_int 0 - nth 0 time_int 0))) = length pulse ->
  exists out,
    shape_pulse fft ifft pulse time_int tf lim = Ok out /\
    length out = length pulse.
Proof.
  intros Hfft Hifft Hne Ht HlenH.
  destruct (Hfft pulse Hne) as (P & HP & HlenP).
  rewrite (shape_pulse_spectrum time_int tf lim Ht HP HlenP HlenH).
  set (S := ufunc_where _ _ _ _ _).
  assert (HlenS : length S = length P).
  { apply ufunc_where_length.
    - congruence.
    - rewrite length_map. congruence.
    - unfold zeros_like. rewrite length_map. congruence. }
  assert (HS : S <> []).
  { intros E. rewrite E in HlenS. simpl in HlenS.
    destruct pulse; [congruence | simpl in HlenP; lia]. }
  destruct (Hifft S HS) as (out & Hout & Hlen).
  exists out. split; [exact Hout | congruence].
Qed.

(** With a gain of 1 in every bin and a limit below 1 the division leaves
    the spectrum as it is, and the inverse transform returns the pulse. *)
Lemma shape_pulse_unit_gain (pulse : list C) (time_int : list R)
    (tf : list R -> list C) (lim : R) :
  keeps_length fft -> inverse_pair fft ifft ->
  pulse <> [] -> (2 <= length time_int)%nat -> lim < 1 ->
  tf (fftfreq (length pulse) (nth 1 time_int 0 - nth 0 time_int 0)) =
  map (fun _ => C1)
    (fftfreq (length pulse) (nth 1 time_int 0 - nth 0 time_int 0)) ->
  shape_pulse fft ifft pulse time_int tf lim = Ok pulse.
Proof.
  intros Hfft Hinv Hne Ht Hlim Hunit.
  destruct (Hfft pulse Hne) as (P & HP & HlenP).
  rewrite (@shape_pulse_spectrum pulse time_int tf lim P Ht HP HlenP).
  - rewrite Hunit. rewrite ufunc_where_unit_gain.
    + apply Hinv. exact HP.
    + exact Hlim.
    + rewrite fftfreq_length. congruence.
  - rewrite Hunit, length_map, fftfreq_length. reflexivity.
Qed.

End PulseShaperFacts.

(** ** The reference transforms keep the length *)

Lemma dft_length (x : list C) : length (dft x) = length x.
Proof. unfold dft. rewrite length_map, length_seq. reflexivity. Qed.

Lemma idft_length (x : list C) : length (idft x) = length x.
Proof. unfold idft. rewrite length_map, length_seq. reflexivity. Qed.

Lemma fft_ref_keeps_length : keeps_length fft_ref.
Proof.
  intros [|a x] H; [congruence|].
  exists (dft (a :: x)). split; [reflexivity | apply dft_length].
Qed.

Lemma ifft_ref_keeps_length : keeps_length ifft_ref.
Proof.
  intros [|a x] H; [congruence|].
  exists (idft (a :: x)). split; [reflexivity | apply idft_length].
Qed.

(** ** The reference transforms are inverse to each other *)

Lemma Cplus_comm (a b : C) : Cplus a b = Cplus b a.
Proof. apply C_eq; simpl; ring. Qed.

Lemma Cplus_assoc (a b c : C) : Cplus a (Cplus b c) = Cplus (Cplus a b) c.
Proof. apply C_eq; simpl; ring. Qed.

Lemma Cplus_0_l (a : C) : Cplus C0 a = a.
Proof. apply C_eq; simpl; ring. Qed.

Lemma Cplus_0_r (a : C) : Cplus a C0 = a.
Proof. apply C_eq; simpl; ring. Qed.

Lemma Cmult_comm (a b : C) : Cmult a b = Cmult b a.
Proof. apply C_eq; simpl; ring. Qed.

Lemma Cmult_assoc (a b c : C) : Cmult a (Cmult b c) = Cmult (Cmult a b) c.
Proof. apply C_eq; simpl; ring. Qed.

Lemma Cmult_0_r (a : C) : Cmult a C0 = C0.
Proof. apply C_eq; simpl; ring. Qed.

Lemma Cmult_1_r (a : C) : Cmult a C1 = a.
Proof. apply C_eq; simpl; ring. Qed.

Lemma Cmult_plus_distr_l (a b c : C) :
  Cmult a (Cplus b c) = Cplus (Cmult a b) (Cmult a c).
Proof. apply C_eq; simpl; ring. Qed.

Lemma Cmult_plus_distr_r (a b c : C) :
  Cmult (Cplus a b) c = Cplus (Cmult a c) (Cmult b c).
Proof. apply C_eq; simpl; ring. Qed.

Lemma Cnorm2_zero (a : C) : Cnorm2 a = 0 -> a = C0.
Proof.
  destruct a as [x y]. unfold Cnorm2, C0; simpl. intros H.
  assert (x = 0) by nra. assert (y = 0) by nra. subst. reflexivity.
Qed.

Lemma Cnorm2_mult (a b : C) : Cnorm2 (Cmult a b) = Cnorm2 a * Cnorm2 b.
Proof. unfold Cnorm2, Cmult; simpl. ring. Qed.

Lemma Cmult_integral (a b : C) : Cmult a b = C0 -> a = C0 \/ b = C0.
Proof.
  intros H. assert (Hn : Cnorm2 a * Cnorm2 b = 0).
  { rewrite <- Cnorm2_mult, H. unfold Cnorm2, C0; simpl. ring. }
  apply Rmult_integral in Hn.
  destruct Hn as [Hn | Hn]; [left | right]; apply Cnorm2_zero; exact Hn.
Qed.

Lemma Cexp_0 : Cexp 0 = C1.
Proof. unfold Cexp, C1. rewrite cos_0, sin_0. reflexivity. Qed.

Lemma Cexp_plus (a b : R) : Cexp (a + b) = Cmult (Cexp a) (Cexp b).
Proof.
  unfold Cexp, Cmult; simpl. rewrite cos_plus, sin_plus.
  apply C_eq; simpl; ring.
Qed.

(** *** Finite sums *)

Lemma Csum_app (l1 l2 : list C) :
  Csum (l1 ++ l2) = Cplus (Csum l1) (Csum l2).
Proof.
  induction l1 as [|z l1 IH]; simpl.
  - rewrite Cplus_0_l. reflexivity.
  - rewrite IH. apply Cplus_assoc.
Qed.

Lemma Csum_map_mult_l (A : Type) (c : C) (f : A -> C) (l : list A) :
  Csum (map (fun k => Cmult c (f k)) l) = Cmult c (Csum (map f l)).
Proof.
  induction l as [|k l IH]; simpl.
  - rewrite Cmult_0_r. reflexivity.
  - rewrite IH, Cmult_plus_distr_l. reflexivity.
Qed.

Lemma Csum_map_mult_r (A : Type) (c : C) (f : A -> C) (l : list A) :
  Csum (map (fun k => Cmult (f k) c) l) = Cmult (Csum (map f l)) c.
Proof.
  rewrite (Cmult_comm _ c), <- Csum_map_mult_l.
  f_equal. apply map_ext. intros k. apply Cmult_comm.
Qed.

Lemma Csum_map_plus (A : Type) (f g : A -> C) (l : list A) :
  Csum (map (fun k => Cplus (f k) (g k)) l) =
  Cplus (Csum (map f l)) (Csum (map g l)).
Proof.
  induction l as [|k l IH]; simpl.
  - rewrite Cplus_0_l. reflexivity.
  - rewrite IH. apply C_eq; simpl; ring.
Qed.

Lemma Csum_map_zero (A : Type) (l : list A) :
  Csum (map (fun _ => C0) l) = C0.
Proof.
  induction l as [|k l IH]; simpl; [reflexivity|].
  rewrite IH. apply Cplus_0_l.
Qed.

Lemma Csum_swap (A B : Type) (g : A -> B -> C) (l1 : list A) (l2 : list B) :
  Csum (map (fun k => Csum (map (fun n => g k n) l2)) l1) =
  Csum (map (fun n => Csum (map (fun k => g k n) l1)) l2).
Proof.
  induction l1 as [|k l1 IH]; simpl.
  - rewrite Csum_map_zero. reflexivity.
  - rewrite IH, <- Csum_map_plus. reflexivity.
Qed.

Lemma Csum_ones (A : Type) (l : list A) :
  Csum (map (fun _ => C1) l) = RtoC (INR (length l)).
Proof.
  induction l as [|k l IH]; [reflexivity|].
  cbn [map Csum length]. rewrite IH, S_INR.
  unfold Cplus, C1, RtoC; apply C_eq; simpl; ring.
Qed.

(** A sum whose terms vanish off the index [m] keeps the term at [m]. *)
Lemma Csum_pick (f : nat -> C) (c : C) (m a n : nat) :
  (a <= m < a + n)%nat ->
  Csum (map (fun j => Cmult (f j) (if (j =? m)%nat then c else C0))
          (seq a n)) = Cmult (f m) c.
Proof.
  revert a. induction n as [|n IH]; intros a H; [lia|].
  cbn [seq map Csum].
  destruct (Nat.eqb_spec a m) as [-> | Hne].
  - replace (Csum _) with C0; [apply Cplus_0_r|].
    symmetry. etransitivity; [|apply (Csum_map_zero (seq (S m) n))].
    f_equal. apply map_ext_in. intros j Hj. apply in_seq in Hj.
    destruct (Nat.eqb_spec j m); [lia|]. apply Cmult_0_r.
  - rewrite Cmult_0_r, Cplus_0_l. apply IH. lia.
Qed.

(** *** The geometric sum of a root of unity *)

Lemma geometric_sum (t : R) (j : nat) :
  Cmult (Cminus (Cexp t) C1)
        (Csum (map (fun k => Cexp (INR k * t)) (seq 0 j))) =
  Cminus (Cexp (INR j * t)) C1.
Proof.
  induction j as [|j IH].
  - simpl. rewrite Rmult_0_l, Cexp_0, Cmult_0_r.
    apply C_eq; simpl; ring.
  - rewrite seq_S, map_app, Csum_app, Cmult_plus_distr_l, IH.
    cbn [map Csum Nat.add]. rewrite Cplus_0_r.
    rewrite S_INR.
    replace ((INR j + 1) * t) with (t + INR j * t) by ring.
    rewrite Cexp_plus.
    apply C_eq; simpl; ring.
Qed.

Lemma Cexp_full_turns (m n : nat) : Cexp (2 * PI * (INR m - INR n)) = C1.
Proof.
  unfold Cexp, C1.
  replace (2 * PI * (INR m - INR n))
    with (0 + 2 * INR m * PI - 2 * INR n * PI) by ring.
  rewrite <- (cos_period (0 + 2 * INR m * PI - 2 * INR n * PI) n).
  rewrite <- (sin_period (0 + 2 * INR m * PI - 2 * INR n * PI) n).
  replace (0 + 2 * INR m * PI - 2 * INR n * PI + 2 * INR n * PI)
    with (0 + 2 * INR m * PI) by ring.
  rewrite cos_period, sin_period, cos_0, sin_0. reflexivity.
Qed.

Lemma Cexp_root_neq_1 (m n N : nat) :
  (m < N)%nat -> (n < N)%nat -> m <> n ->
  Cexp (2 * PI * (INR m - INR n) / INR N) <> C1.
Proof.
  intros Hm Hn Hne E.
  assert (HN : 0 < INR N) by (apply lt_0_INR; lia).
  set (h := PI * (INR m - INR n) / INR N).
  assert (Hcos : cos (2 * h) = 1).
  { unfold Cexp, C1 in E. injection E as Hc _. rewrite <- Hc.
    f_equal. unfold h. field. lra. }
  rewrite cos_2a_sin in Hcos.
  assert (Hsin : sin h = 0) by nra.
  destruct (sin_eq_0_0 h Hsin) as [k Hk].
  unfold h in Hk.
  assert (Hd : INR m - INR n = IZR k * INR N).
  { pose proof PI_RGT_0 as Hpi.
    apply (Rmult_eq_reg_l PI); [|lra].
    replace (PI * (INR m - INR n))
      with (PI * (INR m - INR n) / INR N * INR N) by (field; lra).
    rewrite Hk. ring. }
  rewrite !INR_IZR_INZ, <- minus_IZR, <- mult_IZR in Hd.
  apply eq_IZR in Hd.
  assert (Hk3 : (k = 0 \/ 1 <= k \/ k <= -1)%Z) by lia.
  destruct Hk3 as [-> | [Hk1 | Hk1]]; [lia | nia | nia].
Qed.

Lemma roots_sum (m n N : nat) :
  (m < N)%nat -> (n < N)%nat ->
  Csum (map (fun k => Cexp (INR k * (2 * PI * (INR m - INR n) / INR N)))
          (seq 0 N)) =
  if (n =? m)%nat then RtoC (INR N) else C0.
Proof.
  intros Hm Hn. destruct (Nat.eqb_spec n m) as [-> | Hne].
  - transitivity (RtoC (INR (length (seq 0 N))));
      [|rewrite length_seq; reflexivity].
    rewrite <- Csum_ones.
    f_equal. apply map_ext. intros k.
    replace (INR k * (2 * PI * (INR m - INR m) / INR N)) with 0.
    + apply Cexp_0.
    + unfold Rdiv. ring.
  - assert (HN : 0 < INR N) by (apply lt_0_INR; lia).
    pose proof (geometric_sum (2 * PI * (INR m - INR n) / INR N) N) as G.
    replace (INR N * (2 * PI * (INR m - INR n) / INR N))
      with (2 * PI * (INR m - INR n)) in G by (field; lra).
    rewrite Cexp_full_turns in G.
    replace (Cminus C1 C1) with C0 in G by (apply C_eq; simpl; ring).
    apply Cmult_integral in G. destruct G as [G | G]; [|exact G].
    exfalso. apply (@Cexp_root_neq_1 m n N Hm Hn); [congruence|].
    unfold Cminus, Cplus, Copp, C1, C0 in G.
    injection G as G1 G2.
    apply C_eq; simpl in *; lra.
Qed.

(** *** Inversion *)

Lemma nth_map_seq (f : nat -> C) (N k : nat) :
  (k < N)%nat -> nth k (map f (seq 0 N)) C0 = f k.
Proof.
  intros H.
  rewrite (nth_indep _ C0 (f 0%nat)) by (rewrite length_map, length_seq; lia).
  rewrite map_nth, seq_nth by lia. reflexivity.
Qed.

Lemma map_nth_seq (x : list C) :
  map (fun m => nth m x C0) (seq 0 (length x)) = x.
Proof.
  induction x as [|a x IH]; [reflexivity|].
  cbn [length seq map nth]. f_equal.
  rewrite <- seq_shift, map_map. exact IH.
Qed.

(** Bin [m] of the inverse sum over the forward sum is [N] times sample
    [m]. *)
Lemma dft_bin_dft (x : list C) (m : nat) :
  (m < length x)%nat ->
  dft_bin 1 (dft x) m = Cmult (nth m x C0) (RtoC (INR (length x))).
Proof.
  intros Hm. unfold dft_bin. rewrite dft_length.
  set (N := length x) in *.
  assert (HN : 0 < INR N) by (apply lt_0_INR; lia).
  transitivity
    (Csum (map (fun k =>
             Csum (map (fun n =>
                     Cmult (nth n x C0)
                       (Cexp (INR k * (2 * PI * (INR m - INR n) / INR N))))
                   (seq 0 N)))
           (seq 0 N))).
  - f_equal. apply map_ext_in. intros k Hk. apply in_seq in Hk.
    unfold dft. fold N. rewrite nth_map_seq by lia.
    unfold dft_bin. fold N.
    rewrite <- Csum_map_mult_r. f_equal. apply map_ext. intros n.
    rewrite <- Cmult_assoc, <- Cexp_plus. f_equal. f_equal.
    field. lra.
  - rewrite Csum_swap.
    transitivity
      (Csum (map (fun n =>
               Cmult (nth n x C0)
                     (if (n =? m)%nat then RtoC (INR N) else C0))
             (seq 0 N))).
    + f_equal. apply map_ext_in. intros n Hn. apply in_seq in Hn.
      rewrite Csum_map_mult_l. f_equal. apply roots_sum; lia.
    + apply Csum_pick. lia.
Qed.

Lemma idft_dft (x : list C) : idft (dft x) = x.
Proof.
  unfold idft. rewrite dft_length.
  etransitivity; [|apply (map_nth_seq x)].
  apply map_ext_in. intros m Hm. apply in_seq in Hm.
  rewrite dft_bin_dft by lia.
  assert (HN : 0 < INR (length x)) by (apply lt_0_INR; lia).
  unfold Cscal, Cmult, RtoC. apply C_eq; simpl; field; lra.
Qed.

Lemma fft_ref_inverse : inverse_pair fft_ref ifft_ref.
Proof.
  intros x y. destruct x as [|a x]; [discriminate|].
  cbn [fft_ref]. intros E. injection E as <-.
  unfold ifft_ref.
  destruct (dft (a :: x)) eqn:Hd.
  - pose proof (dft_length (a :: x)) as Hl. rewrite Hd in Hl. discriminate.
  - rewrite <- Hd, idft_dft. reflexivity.
Qed.

(** ** The transfer-function model *)

Section TransferFunctionModel.

Variable CubicSpline : list R -> list C -> result (R -> C).

(** C2.  A model built from samples whose first frequency is
    [lower_limit] and whose last is [upper_limit] returns exactly [0+0i]
    at every frequency [f] with [|f| > upper_limit], and, when
    [lower_limit > 0], at every [f] strictly between [-lower_limit] and
    [lower_limit]. *)
Theorem out_of_band_zeroing (s21 : list C) (swept_fs : list R)
    (model : list R -> list C) (u l : R)
    (arr : list R) (k : nat) (f : R) :
  make_transfer_func CubicSpline s21 swept_fs = Ok (model, u, l) ->
  nth_error arr k = Some f ->
  Rabs f > last swept_fs 0 \/
  (0 < hd 0 swept_fs /\ - hd 0 swept_fs < f < hd 0 swept_fs) ->
  nth_error (model arr) k = Some C0.
Proof.
  intros Hmk Hk Hf.
  destruct (make_transfer_func_inv _ _ _ Hmk) as (S & _ & -> & -> & ->).
  rewrite (@full_transfer_func_nth S _ _ arr k _ Hk).
  f_equal. apply transfer_at_out_of_band. tauto.
Qed.

(** C3, amended.  For a built model and frequencies [f] with
    [0 < |f| <= upper_limit], the model at [-f] is the complex conjugate
    of the model at [f]. *)
Theorem conjugate_symmetry_off_zero (s21 : list C) (swept_fs : list R)
    (model : list R -> list C) (u l : R) (arr : list R) :
  make_transfer_func CubicSpline s21 swept_fs = Ok (model, u, l) ->
  Forall (fun f => f <> 0 /\ Rabs f <= last swept_fs 0) arr ->
  model (map Ropp arr) = map Cconj (model arr).
Proof.
  intros Hmk Harr.
  destruct (make_transfer_func_inv _ _ _ Hmk) as (S & _ & -> & -> & ->).
  rewrite !full_transfer_func_map, !map_map.
  induction Harr as [|f arr [Hf _] _ IH]; [reflexivity|].
  cbn [map]. rewrite IH. f_equal. apply transfer_at_opp. exact Hf.
Qed.

(** C5, amended.  For samples the interpolation routine accepts, the
    build returns the triple (model, upper_limit, lower_limit) in that
    order: the second component is the last sample frequency and the
    third is the first sample frequency. *)
Theorem make_transfer_func_returns (s21 : list C) (swept_fs : list R) :
  accepts_valid CubicSpline ->
  spline_accepts swept_fs s21 = true ->
  exists S,
    CubicSpline swept_fs s21 = Ok S /\
    make_transfer_func CubicSpline s21 swept_fs =
      Ok (full_transfer_func S (last swept_fs 0) (hd 0 swept_fs),
          last swept_fs 0, hd 0 swept_fs).
Proof.
  intros Hacc Hv. destruct (Hacc _ _ Hv) as [S HS].
  exists S. split; [exact HS|].
  apply make_transfer_func_ok; [exact HS|].
  apply spline_accepts_spec in Hv. destruct Hv as (Hlen & _).
  destruct swept_fs; [simpl in Hlen; lia | discriminate].
Qed.

(** C8, amended.  For a model built from samples with non-negative
    frequencies, the model at a sample frequency [f_i] is the sample
    response there, and for [f_i <> 0] the model at [-f_i] is the
    complex conjugate of that response. *)
Theorem interpolation_fidelity (s21 : list C) (swept_fs : list R)
    (model : list R -> list C) (u l : R) (i : nat) (fi : R) (yi : C) :
  interpolates CubicSpline ->
  make_transfer_func CubicSpline s21 swept_fs = Ok (model, u, l) ->
  0 <= hd 0 swept_fs ->
  nth_error swept_fs i = Some fi -> nth_error s21 i = Some yi ->
  (forall arr k, nth_error arr k = Some fi ->
                 nth_error (model arr) k = Some yi) /\
  (fi <> 0 ->
   forall arr k, nth_error arr k = Some (- fi) ->
                 nth_error (model arr) k = Some (Cconj yi)).
Proof.
  intros Hint Hmk Hnn Hfi Hyi.
  destruct (make_transfer_func_inv _ _ _ Hmk) as (S & HS & -> & -> & ->).
  destruct (Hint _ _ _ HS) as [Hv HSi].
  apply spline_accepts_spec in Hv. destruct Hv as (_ & _ & Hsi).
  pose proof (strictly_increasing_bounds _ _ Hsi Hfi) as Hb.
  assert (Hat : transfer_at S (last swept_fs 0) (hd 0 swept_fs) fi = yi).
  { rewrite transfer_at_in_band by lra. exact (HSi _ _ _ Hfi Hyi). }
  split.
  - intros arr k Hk. rewrite (@full_transfer_func_nth S _ _ arr k _ Hk).
    f_equal. exact Hat.
  - intros Hne arr k Hk. rewrite (@full_transfer_func_nth S _ _ arr k _ Hk).
    f_equal. rewrite transfer_at_opp by exact Hne. rewrite Hat. reflexivity.
Qed.

(** C9.  When the sample frequencies are fewer than two, are not
    strictly increasing or contain a duplicate, the build raises the
    error of the interpolation routine; for a strictly increasing
    sequence of at least two samples it succeeds. *)
Theorem construction_errors (s21 : list C) (swept_fs : list R) :
  rejects_invalid CubicSpline -> accepts_valid CubicSpline ->
  ((length swept_fs < 2)%nat \/ strictly_increasing swept_fs = false \/
   ~ NoDup swept_fs ->
   make_transfer_func CubicSpline s21 swept_fs = Raise ValueError) /\
  ((2 <= length swept_fs)%nat -> length s21 = length swept_fs ->
   strictly_increasing swept_fs = true ->
   exists model u l,
     make_transfer_func CubicSpline s21 swept_fs = Ok (model, u, l)).
Proof.
  intros Hrej Hacc. split.
  - intros Hbad. apply make_transfer_func_raise. apply Hrej.
    destruct (spline_accepts swept_fs s21) eqn:Hv; [|reflexivity].
    apply spline_accepts_spec in Hv. destruct Hv as (Hlen & _ & Hsi).
    destruct Hbad as [H | [H | H]].
    + lia.
    + congruence.
    + destruct H. apply strictly_increasing_NoDup. exact Hsi.
  - intros Hlen Hy Hsi.
    assert (Hv : spline_accepts swept_fs s21 = true)
      by (apply spline_accepts_spec; auto).
    destruct (Hacc _ _ Hv) as [S HS].
    do 3 eexists. apply make_transfer_func_ok; [exact HS|].
    destruct swept_fs; [simpl in Hlen; lia | discriminate].
Qed.

End TransferFunctionModel.

(** *** Instances on the reference interpolation routine *)

Lemma out_of_band_zeroing_witness :
  nth_error (full_transfer_func (interpolant [1; 2] [C1; Ci]) 2 1 [3; / 2]) 0
    = Some C0 /\
  nth_error (full_transfer_func (interpolant [1; 2] [C1; Ci]) 2 1 [3; / 2]) 1
    = Some C0.
Proof.
  assert (H12 : 1 < 2) by lra.
  split.
  - apply (out_of_band_zeroing spline_ref [C1; Ci] [1; 2] [3; / 2] 0
             (make_transfer_func_pair C1 Ci H12) eq_refl).
    left. cbn [last]. rewrite Rabs_right; lra.
  - apply (out_of_band_zeroing spline_ref [C1; Ci] [1; 2] [3; / 2] 1
             (make_transfer_func_pair C1 Ci H12) eq_refl).
    right. cbn [hd]. lra.
Defined.

(** C3 as stated fails at [f = 0]: for the responses [i, 1] at the
    frequencies [0, 1], the model at [-0] is [i], and the conjugate of the
    model at [0] is [-i]. *)
Lemma conjugate_symmetry_fails_at_zero :
  make_transfer_func spline_ref [Ci; C1] [0; 1] =
    Ok (full_transfer_func (interpolant [0; 1] [Ci; C1]) 1 0, 1, 0) /\
  Rabs 0 <= 1 /\
  full_transfer_func (interpolant [0; 1] [Ci; C1]) 1 0 [- 0] <>
  map Cconj (full_transfer_func (interpolant [0; 1] [Ci; C1]) 1 0 [0]).
Proof.
  split; [apply make_transfer_func_pair; lra|].
  split; [exact Rabs_le_1_0|].
  rewrite model_at_minus_zero, model_at_zero. cbn [map].
  intros H. injection H as H. lra.
Qed.

Lemma conjugate_symmetry_off_zero_witness :
  full_transfer_func (interpolant [0; 1] [Ci; C1]) 1 0 (map Ropp [1; / 2]) =
  map Cconj (full_transfer_func (interpolant [0; 1] [Ci; C1]) 1 0 [1; / 2]).
Proof.
  assert (H01 : 0 < 1) by lra.
  apply (conjugate_symmetry_off_zero spline_ref [Ci; C1] [0; 1]
           (make_transfer_func_pair Ci C1 H01)).
  repeat constructor; cbn [last]; try lra; rewrite Rabs_right; lra.
Defined.

(** C5 as stated fails: built from the frequencies [0, 1], the second
    component of the triple is [1], the last sample frequency, and the
    third is [0], the first. *)
Lemma return_order_is_upper_then_lower :
  make_transfer_func spline_ref [C1; C1] [0; 1] =
    Ok (full_transfer_func (interpolant [0; 1] [C1; C1]) 1 0, 1, 0) /\
  1 <> hd 0 [0; 1] /\ 0 <> last [0; 1] 0.
Proof.
  split; [apply make_transfer_func_pair; lra|].
  cbn [hd last]. split; lra.
Qed.

Lemma make_transfer_func_returns_witness :
  exists S,
    spline_ref [0; 1] [C1; C1] = Ok S /\
    make_transfer_func spline_ref [C1; C1] [0; 1] =
      Ok (full_transfer_func S (last [0; 1] 0) (hd 0 [0; 1]),
          last [0; 1] 0, hd 0 [0; 1]).
Proof.
  assert (H01 : 0 < 1) by lra.
  exact (make_transfer_func_returns (CubicSpline := spline_ref)
           [C1; C1] [0; 1] spline_ref_accepts (spline_accepts_pair C1 C1 H01)).
Defined.

(** C8 as stated fails at the sample frequency [0]: for the responses
    [i, 1] at the frequencies [0, 1], the model at [-0] is the response
    [i] itself and not its conjugate [-i]. *)
Lemma fidelity_fails_at_minus_zero :
  make_transfer_func spline_ref [Ci; C1] [0; 1] =
    Ok (full_transfer_func (interpolant [0; 1] [Ci; C1]) 1 0, 1, 0) /\
  nth_error [0; 1] 0 = Some 0 /\ nth_error [Ci; C1] 0 = Some Ci /\
  nth_error (full_transfer_func (interpolant [0; 1] [Ci; C1]) 1 0 [- 0]) 0
    = Some Ci /\
  Ci <> Cconj Ci.
Proof.
  split; [apply make_transfer_func_pair; lra|].
  split; [reflexivity|]. split; [reflexivity|].
  rewrite model_at_minus_zero. split; [reflexivity|].
  intros H. apply Cconj_Ci_neq. symmetry. exact H.
Qed.

Lemma interpolation_fidelity_witness :
  nth_error (full_transfer_func (interpolant [0; 1] [Ci; C1]) 1 0 [1]) 0
    = Some C1 /\
  nth_error (full_transfer_func (interpolant [0; 1] [Ci; C1]) 1 0 [- 1]) 0
    = Some (Cconj C1).
Proof.
  assert (H01 : 0 < 1) by lra.
  assert (Hnn : 0 <= hd 0 [0; 1]) by (cbn [hd]; lra).
  assert (Hne : 1 <> 0) by lra.
  destruct (@interpolation_fidelity spline_ref [Ci; C1] [0; 1] _ 1 0
              1%nat 1 C1
              spline_ref_interpolates (make_transfer_func_pair Ci C1 H01)
              Hnn eq_refl eq_refl) as [Hpos Hneg].
  split.
  - exact (Hpos [1] 0%nat eq_refl).
  - exact (Hneg Hne [- 1] 0%nat eq_refl).
Defined.

Lemma construction_errors_witness :
  make_transfer_func spline_ref [C1; C1] [1; 1] = Raise ValueError /\
  exists model u l,
    make_transfer_func spline_ref [C1; C1] [0; 1] = Ok (model, u, l).
Proof.
  split.
  - apply (construction_errors (CubicSpline := spline_ref) [C1; C1] [1; 1]
             spline_ref_rejects spline_ref_accepts).
    right; left. cbn [strictly_increasing].
    replace (Rltb 1 1) with false by (symmetry; apply Rltb_false; lra).
    reflexivity.
  - apply (construction_errors (CubicSpline := spline_ref) [C1; C1] [0; 1]
             spline_ref_rejects spline_ref_accepts).
    + simpl; lia.
    + reflexivity.
    + cbn [strictly_increasing].
      replace (Rltb 0 1) with true by (symmetry; apply Rltb_true; lra).
      reflexivity.
Defined.

(** ** The pulse shaper *)

Section PulseShaperProperties.

Variables fft ifft : list C -> result (list C).

(** C1, amended.  For a non-empty pulse, a time axis with a spacing, a
    transfer function giving one gain per bin and a positive scaling
    limit, the spectrum that [shape_pulse] inverse-transforms has, in bin
    [k], [P[k] / H[k]] when [|H[k]| > scaling_limit] and exactly [0]
    otherwise, where [P] is the transform of the pulse and [H] the
    transfer function on the bin frequencies; every division performed
    has a non-zero divisor. *)
Theorem spectral_division (pulse : list C) (time_int : list R)
    (transfer_func : list R -> list C) (scaling_limit : R) :
  keeps_length fft ->
  pulse <> [] -> (2 <= length time_int)%nat -> 0 < scaling_limit ->
  let H := transfer_func
             (fftfreq (length pulse)
                (nth 1 time_int 0 - nth 0 time_int 0)) in
  length H = length pulse ->
  exists P S,
    fft pulse = Ok P /\ length S = length pulse /\
    shape_pulse fft ifft pulse time_int transfer_func scaling_limit = ifft S /\
    forall k, (k < length pulse)%nat ->
      (scaling_limit < Cabs (nth k H C0) ->
       nth k H C0 <> C0 /\ nth k S C0 = Cdiv (nth k P C0) (nth k H C0)) /\
      (Cabs (nth k H C0) <= scaling_limit -> nth k S C0 = C0).
Proof.
  intros Hfft Hne Ht Hlim H HlenH.
  destruct (Hfft pulse Hne) as (P & HP & HlenP).
  exists P.
  exists (ufunc_where Cdiv P H
            (map (fun h => Rgtb (Cabs h) scaling_limit) H) (zeros_like H)).
  split; [exact HP|]. split; [|split].
  - rewrite ufunc_where_length; auto; try congruence.
    + rewrite length_map. congruence.
    + unfold zeros_like. rewrite length_map. congruence.
  - apply shape_pulse_spectrum; assumption.
  - intros k Hk.
    rewrite ufunc_where_nth by congruence. unfold Rgtb.
    split.
    + intros Hgt. split; [exact (Cabs_gt_nonzero Hlim Hgt)|].
      apply Rltb_true in Hgt. rewrite Hgt. reflexivity.
    + intros Hle. apply Rltb_false in Hle. rewrite Hle. reflexivity.
Qed.

(** C4, amended.  When the pulse and the time axis differ in length no
    shape error is raised: a time axis of fewer than two entries raises
    IndexError, and otherwise, for a non-empty pulse and a transfer
    function giving one gain per bin, the call returns a result of the
    pulse's length. *)
Theorem length_mismatch_not_checked (pulse : list C) (time_int : list R)
    (transfer_func : list R -> list C) (scaling_limit : R) :
  keeps_length fft -> keeps_length ifft ->
  length pulse <> length time_int ->
  ((length time_int < 2)%nat ->
   shape_pulse fft ifft pulse time_int transfer_func scaling_limit
   = Raise IndexError) /\
  ((2 <= length time_int)%nat -> pulse <> [] ->
   length (transfer_func
             (fftfreq (length pulse)
                (nth 1 time_int 0 - nth 0 time_int 0))) = length pulse ->
   exists out,
     shape_pulse fft ifft pulse time_int transfer_func scaling_limit = Ok out /\
     length out = length pulse).
Proof.
  intros Hfft Hifft _. split.
  - intros Hshort. unfold shape_pulse.
    rewrite (getitem_short time_int Hshort). reflexivity.
  - intros Ht Hne HlenH. apply shape_pulse_returns; assumption.
Qed.

(** C6.  For a pulse of length at least 2 with its time axis, a transfer
    function that returns 1 at every queried frequency and a scaling limit
    below 1, [shape_pulse] returns the input pulse. *)
Theorem identity_channel (pulse : list C) (time_int : list R)
    (transfer_func : list R -> list C) (scaling_limit : R) :
  keeps_length fft -> inverse_pair fft ifft ->
  (2 <= length pulse)%nat -> length time_int = length pulse ->
  scaling_limit < 1 ->
  let freqs := fftfreq (length pulse)
                 (nth 1 time_int 0 - nth 0 time_int 0) in
  transfer_func freqs = map (fun _ => C1) freqs ->
  shape_pulse fft ifft pulse time_int transfer_func scaling_limit = Ok pulse.
Proof.
  intros Hfft Hinv Hlen Ht Hlim freqs Hunit. unfold freqs in Hunit.
  apply shape_pulse_unit_gain; try assumption.
  - destruct pulse; [simpl in Hlen; lia | discriminate].
  - lia.
Qed.

(** C7.  For a pulse and a time axis of equal length at least 2, a
    transfer function giving one gain per bin and a positive scaling
    limit, [shape_pulse] returns an array with as many samples as the
    pulse. *)
Theorem shape_preserved (pulse : list C) (time_int : list R)
    (transfer_func : list R -> list C) (scaling_limit : R) :
  keeps_length fft -> keeps_length ifft ->
  (2 <= length pulse)%nat -> length time_int = length pulse ->
  0 < scaling_limit ->
  length (transfer_func
            (fftfreq (length pulse)
               (nth 1 time_int 0 - nth 0 time_int 0))) = length pulse ->
  exists out,
    shape_pulse fft ifft pulse time_int transfer_func scaling_limit = Ok out /\
    length out = length pulse.
Proof.
  intros Hfft Hifft Hlen Ht _ HlenH.
  apply shape_pulse_returns; try assumption.
  - destruct pulse; [simpl in Hlen; lia | discriminate].
  - lia.
Qed.

(** C10.  Two time axes of at least two entries whose first two entries
    have the same difference give the same result, whatever their other
    entries and lengths. *)
Theorem depends_on_spacing_only (pulse : list C) (time_int time_int' : list R)
    (transfer_func : list R -> list C) (scaling_limit : R) :
  (2 <= length time_int)%nat -> (2 <= length time_int')%nat ->
  nth 1 time_int 0 - nth 0 time_int 0 =
  nth 1 time_int' 0 - nth 0 time_int' 0 ->
  shape_pulse fft ifft pulse time_int transfer_func scaling_limit =
  shape_pulse fft ifft pulse time_int' transfer_func scaling_limit.
Proof.
  intros Ht Ht' Hdt.
  destruct (time_axis_split time_int Ht) as [rest Hs].
  destruct (time_axis_split time_int' Ht') as [rest' Hs'].
  rewrite Hs, Hs', !shape_pulse_time_axis, Hdt. reflexivity.
Qed.

End PulseShaperProperties.

(** *** Instances on the reference transforms *)

Lemma spectral_division_witness :
  exists P S,
    fft_ref [C1; Ci] = Ok P /\ length S = 2%nat /\
    shape_pulse fft_ref ifft_ref [C1; Ci] [0; 1] (fun _ => [C1; C0]) (/ 10)
    = ifft_ref S /\
    forall k, (k < 2)%nat ->
      (/ 10 < Cabs (nth k [C1; C0] C0) ->
       nth k [C1; C0] C0 <> C0 /\
       nth k S C0 = Cdiv (nth k P C0) (nth k [C1; C0] C0)) /\
      (Cabs (nth k [C1; C0] C0) <= / 10 -> nth k S C0 = C0).
Proof.
  assert (Hne : [C1; Ci] <> []) by discriminate.
  assert (Ht : (2 <= length [0; 1])%nat) by (simpl; lia).
  assert (Hlim : 0 < / 10) by lra.
  exact (@spectral_division fft_ref ifft_ref [C1; Ci] [0; 1]
           (fun _ => [C1; C0]) (/ 10)
           fft_ref_keeps_length Hne Ht Hlim eq_refl).
Defined.

(** C1 as stated fails in binary64 arithmetic.  The pulse
    [2^1023, 0] has the spectrum [2^1023, 2^1023]; with the gains
    [0.5, 0] and the default limit 0.1, bin 1 is clamped to 0 and bin 0
    is divided by 0.5, which overflows to inf; both samples of the
    result then have the real part inf. *)
Lemma overflow_reaches_output :
  PrimFloat.ltb 0 Binary64.default_scaling_limit = true /\
  Binary64.fft_ref [(0x1p1023, 0); (0, 0)]%float
    = Ok [(0x1p1023, 0); (0x1p1023, 0)]%float /\
  Binary64.divide (0x1p1023, 0)%float (0.5, 0)%float = (infinity, 0%float) /\
  exists out,
    Binary64.shape_pulse Binary64.fft_ref Binary64.ifft_ref
      [(0x1p1023, 0); (0, 0)]%float [0; 1]%float
      (fun _ => [(0.5, 0); (0, 0)]%float) Binary64.default_scaling_limit
    = Ok out /\
    map fst out = [infinity; infinity].
Proof.
  split; [reflexivity|]. split; [reflexivity|]. split; [reflexivity|].
  eexists. split; [vm_compute; reflexivity | reflexivity].
Qed.

(** C4 as stated fails: a pulse of three samples with a time axis of two
    entries is shaped without any error; through the unit channel the
    call returns the pulse itself. *)
Lemma mismatched_lengths_return :
  length [C1; C0; C0] <> length [0; 1] /\
  shape_pulse fft_ref ifft_ref [C1; C0; C0] [0; 1]
    (map (fun _ => C1)) (/ 10) = Ok [C1; C0; C0].
Proof.
  split; [simpl; lia|].
  apply shape_pulse_unit_gain.
  - exact fft_ref_keeps_length.
  - exact fft_ref_inverse.
  - discriminate.
  - simpl; lia.
  - lra.
  - reflexivity.
Qed.

Lemma length_mismatch_not_checked_witness :
  shape_pulse fft_ref ifft_ref [C1; C0; C0] [0] (map (fun _ => C1)) (/ 10)
  = Raise IndexError /\
  exists out,
    shape_pulse fft_ref ifft_ref [C1; C0; C0] [0; 1]
      (map (fun _ => C1)) (/ 10) = Ok out /\
    length out = 3%nat.
Proof.
  assert (Hne : [C1; C0; C0] <> []) by discriminate.
  assert (H31 : length [C1; C0; C0] <> length [0]) by (simpl; lia).
  assert (H32 : length [C1; C0; C0] <> length [0; 1]) by (simpl; lia).
  assert (Hs : (length [0] < 2)%nat) by (simpl; lia).
  assert (Ht : (2 <= length [0; 1])%nat) by (simpl; lia).
  split.
  - exact (proj1 (@length_mismatch_not_checked fft_ref ifft_ref
                    [C1; C0; C0] [0] (map (fun _ => C1)) (/ 10)
                    fft_ref_keeps_length ifft_ref_keeps_length H31) Hs).
  - exact (proj2 (@length_mismatch_not_checked fft_ref ifft_ref
                    [C1; C0; C0] [0; 1] (map (fun _ => C1)) (/ 10)
                    fft_ref_keeps_length ifft_ref_keeps_length H32)
             Ht Hne eq_refl).
Defined.

Lemma shape_preserved_witness :
  exists out,
    shape_pulse fft_ref ifft_ref [C1; C0] [0; 1] (map (fun _ => C1)) (/ 10)
    = Ok out /\
    length out = 2%nat.
Proof.
  assert (Hlen : (2 <= length [C1; C0])%nat) by (simpl; lia).
  assert (Hlim : 0 < / 10) by lra.
  exact (@shape_preserved fft_ref ifft_ref [C1; C0] [0; 1]
           (map (fun _ => C1)) (/ 10)
           fft_ref_keeps_length ifft_ref_keeps_length Hlen eq_refl Hlim
           eq_refl).
Defined.

Lemma depends_on_spacing_only_witness :
  shape_pulse fft_ref ifft_ref [C1; C0] [0; 1] (map (fun _ => C1)) (/ 10) =
  shape_pulse fft_ref ifft_ref [C1; C0] [5; 6; 9] (map (fun _ => C1)) (/ 10).
Proof.
  assert (Ht : (2 <= length [0; 1])%nat) by (simpl; lia).
  assert (Ht' : (2 <= length [5; 6; 9])%nat) by (simpl; lia).
  assert (Hdt : nth 1 [0; 1] 0 - nth 0 [0; 1] 0 =
                nth 1 [5; 6; 9] 0 - nth 0 [5; 6; 9] 0) by (simpl; lra).
  exact (@depends_on_spacing_only fft_ref ifft_ref [C1; C0] [0; 1] [5; 6; 9]
           (map (fun _ => C1)) (/ 10) Ht Ht' Hdt).
Defined.

Lemma identity_channel_witness :
  shape_pulse fft_ref ifft_ref [C1; C0; Ci] [0; 1; 2] (map (fun _ => C1))
    (/ 10)
  = Ok [C1; C0; Ci].
Proof.
  assert (Hlen : (2 <= length [C1; C0; Ci])%nat) by (simpl; lia).
  assert (Hlim : / 10 < 1) by lra.
  exact (@identity_channel fft_ref ifft_ref [C1; C0; Ci] [0; 1; 2]
           (map (fun _ => C1)) (/ 10)
           fft_ref_keeps_length fft_ref_inverse Hlen eq_refl Hlim eq_refl).
Defined.

(** * Further properties of the code *)

(** ** The model over the whole frequency axis *)

Lemma Cabs_conj (z : C) : Cabs (Cconj z) = Cabs z.
Proof.
  unfold Cabs, Cnorm2, Cconj; simpl. f_equal. ring.
Qed.

(** The two comparisons of each mask, read on [|x|]. *)
Lemma transfer_at_abs (tf : R -> C) (U L x : R) :
  transfer_at tf U L x =
  if Rltb U (Rabs x) || Rltb (Rabs x) L then C0
  else if Rltb x 0 then Cconj (tf (- x)) else tf x.
Proof.
  unfold transfer_at.
  replace (-1 * x) with (- x) by ring.
  unfold Rabs. destruct (Rcase_abs x); cases_Rltb.
Qed.

Lemma transfer_at_no_dc (tf : R -> C) (U L : R) :
  0 < L -> transfer_at tf U L 0 = C0.
Proof.
  intros H. apply transfer_at_out_of_band. right. lra.
Qed.

Lemma transfer_at_opp_no_dc (tf : R -> C) (U L x : R) :
  0 < L -> transfer_at tf U L (- x) = Cconj (transfer_at tf U L x).
Proof.
  intros HL. destruct (Req_dec x 0) as [-> | Hx].
  - rewrite Ropp_0, transfer_at_no_dc by exact HL. symmetry. apply Cconj_0.
  - apply transfer_at_opp. exact Hx.
Qed.

Lemma transfer_at_opp_abs (tf : R -> C) (U L x : R) :
  Cabs (transfer_at tf U L (- x)) = Cabs (transfer_at tf U L x).
Proof.
  destruct (Req_dec x 0) as [-> | Hx].
  - rewrite Ropp_0. reflexivity.
  - rewrite transfer_at_opp by exact Hx. apply Cabs_conj.
Qed.

Section ModelOverTheAxis.

Variable CubicSpline : list R -> list C -> result (R -> C).

(** X1.  A built model forces 0 exactly where [|f| > upper_limit] or
    [|f| < lower_limit]; on the rest of the axis, band edges included, it
    is the spline at [f] for [f >= 0] and the conjugate of the spline at
    [-f] for [f < 0]. *)
Theorem model_closed_form (s21 : list C) (swept_fs : list R)
    (model : list R -> list C) (u l : R) :
  make_transfer_func CubicSpline s21 swept_fs = Ok (model, u, l) ->
  exists S,
    CubicSpline swept_fs s21 = Ok S /\
    forall arr,
      model arr =
      map (fun x =>
             if Rltb u (Rabs x) || Rltb (Rabs x) l then C0
             else if Rltb x 0 then Cconj (S (- x)) else S x) arr.
Proof.
  intros Hmk.
  destruct (make_transfer_func_inv _ _ _ Hmk) as (S & HS & -> & -> & ->).
  exists S. split; [exact HS|].
  intros arr. rewrite full_transfer_func_map.
  apply map_ext. intros x. apply transfer_at_abs.
Qed.

(** X2.  When the last sample frequency is negative, the built model is
    0 at every frequency. *)
Theorem negative_sweep_gives_zero_model (s21 : list C) (swept_fs : list R)
    (model : list R -> list C) (u l : R) (arr : list R) :
  make_transfer_func CubicSpline s21 swept_fs = Ok (model, u, l) ->
  u < 0 ->
  model arr = map (fun _ => C0) arr.
Proof.
  intros Hmk Hu.
  destruct (make_transfer_func_inv _ _ _ Hmk) as (S & HS & Eu & El & ->).
  rewrite full_transfer_func_map. apply map_ext. intros x.
  apply transfer_at_out_of_band. left.
  pose proof (Rabs_pos x). lra.
Qed.

(** X3.  The gain magnitude of a built model is even in the frequency,
    at every frequency. *)
Theorem magnitude_is_even (s21 : list C) (swept_fs : list R)
    (model : list R -> list C) (u l : R) (arr : list R) :
  make_transfer_func CubicSpline s21 swept_fs = Ok (model, u, l) ->
  map Cabs (model (map Ropp arr)) = map Cabs (model arr).
Proof.
  intros Hmk.
  destruct (make_transfer_func_inv _ _ _ Hmk) as (S & HS & Eu & El & ->).
  rewrite !full_transfer_func_map, !map_map.
  apply map_ext. intros x. apply transfer_at_opp_abs.
Qed.

(** X4.  When the first sample frequency is positive, the model at [-f]
    is the conjugate of the model at [f] for every [f], 0 included. *)
Theorem conjugate_symmetry_without_dc (s21 : list C) (swept_fs : list R)
    (model : list R -> list C) (u l : R) (arr : list R) :
  make_transfer_func CubicSpline s21 swept_fs = Ok (model, u, l) ->
  0 < l ->
  model (map Ropp arr) = map Cconj (model arr).
Proof.
  intros Hmk Hl.
  destruct (make_transfer_func_inv _ _ _ Hmk) as (S & HS & Eu & El & ->).
  rewrite !full_transfer_func_map, !map_map.
  apply map_ext. intros x. apply transfer_at_opp_no_dc. exact Hl.
Qed.

(** X5.  A built model works frequency by frequency: the output has the
    length of the input, and the model of two arrays joined is the two
    outputs joined. *)
Theorem model_is_elementwise (s21 : list C) (swept_fs : list R)
    (model : list R -> list C) (u l : R) (a b : list R) :
  make_transfer_func CubicSpline s21 swept_fs = Ok (model, u, l) ->
  length (model a) = length a /\ model (a ++ b) = model a ++ model b.
Proof.
  intros Hmk.
  destruct (make_transfer_func_inv _ _ _ Hmk) as (S & HS & Eu & El & ->).
  rewrite !full_transfer_func_map. split.
  - apply length_map.
  - apply map_app.
Qed.

End ModelOverTheAxis.

Lemma model_closed_form_witness :
  exists S,
    spline_ref [1; 2] [C1; Ci] = Ok S /\
    forall arr,
      full_transfer_func (interpolant [1; 2] [C1; Ci]) 2 1 arr =
      map (fun x =>
             if Rltb 2 (Rabs x) || Rltb (Rabs x) 1 then C0
             else if Rltb x 0 then Cconj (S (- x)) else S x) arr.
Proof.
  assert (H12 : 1 < 2) by lra.
  exact (@model_closed_form spline_ref [C1; Ci] [1; 2] _ 2 1
           (make_transfer_func_pair C1 Ci H12)).
Defined.

Lemma negative_sweep_gives_zero_model_witness :
  full_transfer_func (interpolant [-2; -1] [C1; Ci]) (-1) (-2) [- 3 / 2; 0; 5]
  = [C0; C0; C0].
Proof.
  assert (H : -2 < -1) by lra.
  assert (Hu : -1 < 0) by lra.
  exact (@negative_sweep_gives_zero_model spline_ref [C1; Ci] [-2; -1] _
           (-1) (-2) [- 3 / 2; 0; 5] (make_transfer_func_pair C1 Ci H) Hu).
Defined.

Lemma magnitude_is_even_witness :
  map Cabs (full_transfer_func (interpolant [0; 1] [Ci; C1]) 1 0
              (map Ropp [0; / 2])) =
  map Cabs (full_transfer_func (interpolant [0; 1] [Ci; C1]) 1 0 [0; / 2]).
Proof.
  assert (H01 : 0 < 1) by lra.
  exact (@magnitude_is_even spline_ref [Ci; C1] [0; 1] _ 1 0 [0; / 2]
           (make_transfer_func_pair Ci C1 H01)).
Defined.

Lemma conjugate_symmetry_without_dc_witness :
  full_transfer_func (interpolant [1; 2] [Ci; C1]) 2 1 (map Ropp [0; 1; 3]) =
  map Cconj (full_transfer_func (interpolant [1; 2] [Ci; C1]) 2 1 [0; 1; 3]).
Proof.
  assert (H12 : 1 < 2) by lra.
  assert (Hl : 0 < 1) by lra.
  exact (@conjugate_symmetry_without_dc spline_ref [Ci; C1] [1; 2] _ 2 1
           [0; 1; 3] (make_transfer_func_pair Ci C1 H12) Hl).
Defined.

Lemma model_is_elementwise_witness :
  length (full_transfer_func (interpolant [0; 1] [Ci; C1]) 1 0 [0; 2]) = 2%nat /\
  full_transfer_func (interpolant [0; 1] [Ci; C1]) 1 0 ([0; 2] ++ [1]) =
  full_transfer_func (interpolant [0; 1] [Ci; C1]) 1 0 [0; 2] ++
  full_transfer_func (interpolant [0; 1] [Ci; C1]) 1 0 [1].
Proof.
  assert (H01 : 0 < 1) by lra.
  exact (@model_is_elementwise spline_ref [Ci; C1] [0; 1] _ 1 0 [0; 2] [1]
           (make_transfer_func_pair Ci C1 H01)).
Defined.

(** ** More on the masked division and the transforms *)

Lemma fftfreq_head (n : nat) (d : R) :
  (1 <= n)%nat -> exists rest, fftfreq n d = 0 :: rest.
Proof.
  intros Hn. unfold fftfreq, arange.
  pose proof (Z.div_mod (Z.of_nat n - 1) 2 ltac:(lia)) as H1.
  pose proof (Z.mod_pos_bound (Z.of_nat n - 1) 2 ltac:(lia)) as H2.
  destruct (Z.to_nat ((Z.of_nat n - 1) / 2 + 1 - 0)) as [|j] eqn:Hj; [lia|].
  cbn [seq map app]. eexists. f_equal.
  change (0 + Z.of_nat 0)%Z with 0%Z. apply Rmult_0_l.
Qed.

Lemma Cmult_div_cancel (a b : C) : b <> C0 -> Cmult (Cdiv a b) b = a.
Proof.
  intros Hb.
  assert (Hn : Cnorm2 b <> 0) by (intros E; apply Hb, Cnorm2_zero, E).
  unfold Cdiv, Cinv, Cmult. unfold Cnorm2 in *.
  apply C_eq; simpl; field; exact Hn.
Qed.

Lemma Cdiv_plus (a b h : C) : Cdiv (Cplus a b) h = Cplus (Cdiv a h) (Cdiv b h).
Proof. unfold Cdiv. apply Cmult_plus_distr_r. Qed.

Lemma map2_length (A B D : Type) (g : A -> B -> D) (a : list A) (b : list B) :
  length b = length a -> length (map2 g a b) = length a.
Proof.
  revert b. induction a as [|x a IH]; intros [|y b] H; simpl in *;
    try discriminate; try reflexivity.
  f_equal. apply IH. lia.
Qed.

Lemma map2_map_same (A B D E : Type) (h : B -> D -> E) (g1 : A -> B)
    (g2 : A -> D) (l : list A) :
  map2 h (map g1 l) (map g2 l) = map (fun k => h (g1 k) (g2 k)) l.
Proof.
  induction l as [|k l IH]; simpl; [reflexivity|]. rewrite IH. reflexivity.
Qed.

Lemma nth_map2_Cplus (x y : list C) (n : nat) :
  length y = length x ->
  nth n (map2 Cplus x y) C0 = Cplus (nth n x C0) (nth n y C0).
Proof.
  revert y n. induction x as [|a x IH]; intros [|b y] n H; simpl in *;
    try discriminate.
  - destruct n; symmetry; apply Cplus_0_l.
  - destruct n as [|n]; [reflexivity|]. apply IH. lia.
Qed.

(** A gain array of another length than the spectrum cannot be broadcast
    into the output array. *)
Lemma np_divide_mismatch (lim : R) (P H : list C) :
  (2 <= length P)%nat -> length H <> length P ->
  np_divide P H (map (fun h => Rgtb (Cabs h) lim) H) (zeros_like H)
  = Raise ValueError.
Proof.
  intros HP Hne. unfold np_divide, broadcast_shape, zeros_like.
  rewrite !length_map.
  destruct (Nat.eqb_spec (length P) (length H)) as [E | _]; [congruence|].
  destruct (Nat.eqb_spec (length P) 1) as [E | _]; [lia|].
  destruct (Nat.eqb_spec (length H) 1) as [E1 | E1]; [|reflexivity].
  rewrite E1.
  destruct (Nat.eqb_spec (length P) 1) as [E | _]; [lia|].
  cbn [Nat.eqb].
  destruct (Nat.eqb_spec (length P) 1) as [E | _]; [lia|]. reflexivity.
Qed.

(** The masked division is additive in the spectrum. *)
Lemma ufunc_where_plus (lim : R) (P Q H : list C) :
  length Q = length P -> length H = length P ->
  ufunc_where Cdiv (map2 Cplus P Q) H
    (map (fun h => Rgtb (Cabs h) lim) H) (zeros_like H) =
  map2 Cplus
    (ufunc_where Cdiv P H (map (fun h => Rgtb (Cabs h) lim) H) (zeros_like H))
    (ufunc_where Cdiv Q H (map (fun h => Rgtb (Cabs h) lim) H) (zeros_like H)).
Proof.
  revert Q H. unfold zeros_like.
  induction P as [|a P IH]; intros [|b Q] [|h H] HQ HH; simpl in *;
    try discriminate; try reflexivity.
  rewrite IH by lia. f_equal.
  destruct (Rgtb (Cabs h) lim).
  - apply Cdiv_plus.
  - symmetry. apply Cplus_0_l.
Qed.

(** With every gain above the limit, the shaped spectrum times the gain
    is the spectrum of the pulse. *)
Lemma ufunc_where_all_pass (lim : R) (P H : list C) :
  0 < lim -> length H = length P ->
  Forall (fun h => lim < Cabs h) H ->
  map2 Cmult
    (ufunc_where Cdiv P H (map (fun h => Rgtb (Cabs h) lim) H) (zeros_like H))
    H = P.
Proof.
  intros Hlim. revert H. unfold zeros_like.
  induction P as [|a P IH]; intros [|h H] Hlen Hall; simpl in *;
    try discriminate; try reflexivity.
  inversion Hall as [|? ? Hh Hrest]; subst.
  unfold Rgtb. replace (Rltb lim (Cabs h)) with true
    by (symmetry; apply Rltb_true; exact Hh).
  rewrite (Cmult_div_cancel a (Cabs_gt_nonzero Hlim Hh)).
  f_equal. apply IH; [lia | exact Hrest].
Qed.

(** *** The reference transforms are additive *)

Lemma dft_bin_plus (sign : R) (x y : list C) (k : nat) :
  length y = length x ->
  dft_bin sign (map2 Cplus x y) k =
  Cplus (dft_bin sign x k) (dft_bin sign y k).
Proof.
  intros H. unfold dft_bin. rewrite (map2_length Cplus x y H), H.
  rewrite <- Csum_map_plus. f_equal. apply map_ext. intros n.
  rewrite (nth_map2_Cplus x y n H). apply Cmult_plus_distr_r.
Qed.

Lemma dft_plus (x y : list C) :
  length y = length x -> dft (map2 Cplus x y) = map2 Cplus (dft x) (dft y).
Proof.
  intros H. unfold dft. rewrite (map2_length Cplus x y H), H.
  rewrite map2_map_same. apply map_ext. intros k.
  apply dft_bin_plus. exact H.
Qed.

Lemma idft_plus (x y : list C) :
  length y = length x -> idft (map2 Cplus x y) = map2 Cplus (idft x) (idft y).
Proof.
  intros H. unfold idft. rewrite (map2_length Cplus x y H), H.
  rewrite map2_map_same. apply map_ext. intros k.
  rewrite (dft_bin_plus 1 x y k H).
  unfold Cscal, Cplus; apply C_eq; simpl; ring.
Qed.

Lemma fft_ref_additive : additive fft_ref.
Proof.
  intros x y fx fy Hlen Hx Hy.
  destruct x as [|a x]; [discriminate|].
  destruct y as [|b y]; [discriminate|].
  cbn [fft_ref] in Hx, Hy. injection Hx as <-. injection Hy as <-.
  rewrite <- dft_plus by (symmetry; exact Hlen). reflexivity.
Qed.

Lemma ifft_ref_additive : additive ifft_ref.
Proof.
  intros x y fx fy Hlen Hx Hy.
  destruct x as [|a x]; [discriminate|].
  destruct y as [|b y]; [discriminate|].
  cbn [ifft_ref] in Hx, Hy. injection Hx as <-. injection Hy as <-.
  rewrite <- idft_plus by (symmetry; exact Hlen). reflexivity.
Qed.

(** *** The forward sum undoes the inverse sum *)

Lemma dft_bin_idft (x : list C) (m : nat) :
  (m < length x)%nat -> dft_bin (-1) (idft x) m = nth m x C0.
Proof.
  intros Hm. unfold dft_bin. rewrite idft_length.
  set (N := length x) in *.
  assert (HN : 0 < INR N) by (apply lt_0_INR; lia).
  transitivity
    (Csum (map (fun k =>
             Csum (map (fun n =>
                     Cmult (Cscal (/ INR N) (nth n x C0))
                       (Cexp (INR k * (2 * PI * (INR n - INR m) / INR N))))
                   (seq 0 N)))
           (seq 0 N))).
  - f_equal. apply map_ext_in. intros k Hk. apply in_seq in Hk.
    unfold idft. fold N. rewrite nth_map_seq by lia.
    unfold dft_bin. fold N.
    transitivity
      (Cmult (Csum (map (fun n =>
                      Cmult (Cscal (/ INR N) (nth n x C0))
                        (Cexp (1 * (2 * PI * INR k * INR n / INR N))))
                    (seq 0 N)))
             (Cexp (-1 * (2 * PI * INR m * INR k / INR N)))).
    + f_equal.
      transitivity
        (Cmult (RtoC (/ INR N))
           (Csum (map (fun n =>
                    Cmult (nth n x C0)
                      (Cexp (1 * (2 * PI * INR k * INR n / INR N))))
                  (seq 0 N)))).
      * unfold Cscal, Cmult, RtoC. apply C_eq; simpl; ring.
      * rewrite <- Csum_map_mult_l. f_equal. apply map_ext. intros n.
        unfold Cscal, Cmult, RtoC. apply C_eq; simpl; ring.
    + rewrite <- Csum_map_mult_r. f_equal. apply map_ext. intros n.
      rewrite <- Cmult_assoc, <- Cexp_plus. f_equal. f_equal.
      field. lra.
  - rewrite Csum_swap.
    transitivity
      (Csum (map (fun n =>
               Cmult (Cscal (/ INR N) (nth n x C0))
                     (if (n =? m)%nat then RtoC (INR N) else C0))
             (seq 0 N))).
    + f_equal. apply map_ext_in. intros n Hn. apply in_seq in Hn.
      rewrite Csum_map_mult_l. f_equal.
      rewrite (@roots_sum n m N) by lia.
      rewrite Nat.eqb_sym. reflexivity.
    + rewrite (Csum_pick (fun n => Cscal (/ INR N) (nth n x C0))) by lia.
      unfold Cscal, Cmult, RtoC. apply C_eq; simpl; field; lra.
Qed.

Lemma dft_idft (x : list C) : dft (idft x) = x.
Proof.
  unfold dft. rewrite idft_length.
  etransitivity; [|apply (map_nth_seq x)].
  apply map_ext_in. intros m Hm. apply in_seq in Hm.
  apply dft_bin_idft. lia.
Qed.

Lemma ifft_ref_inverse : inverse_pair ifft_ref fft_ref.
Proof.
  intros x y. destruct x as [|a x]; [discriminate|].
  cbn [ifft_ref]. intros E. injection E as <-.
  unfold fft_ref.
  destruct (idft (a :: x)) eqn:Hd.
  - pose proof (idft_length (a :: x)) as Hl. rewrite Hd in Hl. discriminate.
  - rewrite <- Hd, dft_idft. reflexivity.
Qed.

(** ** The shaper on arbitrary inputs *)

Section ShaperFacts.

Variables fft ifft : list C -> result (list C).

Lemma shape_pulse_mismatch (pulse : list C) (time_int : list R)
    (tf : list R -> list C) (lim : R) :
  keeps_length fft ->
  (2 <= length pulse)%nat -> (2 <= length time_int)%nat ->
  length (tf (fftfreq (length pulse)
                (nth 1 time_int 0 - nth 0 time_int 0))) <> length pulse ->
  shape_pulse fft ifft pulse time_int tf lim = Raise ValueError.
Proof.
  intros Hfft Hlen Ht Hne.
  assert (Hp : pulse <> [])
    by (destruct pulse; [simpl in Hlen; lia | discriminate]).
  destruct (Hfft pulse Hp) as (P & HP & HlenP).
  destruct (time_axis_split time_int Ht) as [rest Hsplit].
  rewrite Hsplit at 1. rewrite shape_pulse_time_axis. cbv zeta.
  rewrite HP. cbn [bind].
  rewrite np_divide_mismatch; [reflexivity | lia | congruence].
Qed.

Lemma shape_pulse_short_axis (pulse : list C) (time_int : list R)
    (tf : list R -> list C) (lim : R) :
  (length time_int < 2)%nat ->
  shape_pulse fft ifft pulse time_int tf lim = Raise IndexError.
Proof.
  intros H. unfold shape_pulse. rewrite (getitem_short time_int H).
  reflexivity.
Qed.

End ShaperFacts.

Section ShaperOnArbitraryInputs.

Variables fft ifft : list C -> result (list C).
Variable CubicSpline : list R -> list C -> result (R -> C).

(** X6.  A model returned by [make_transfer_func] can be handed to
    [shape_pulse] as it is: for a non-empty pulse and a time axis of at
    least two entries the call returns a result of the pulse's length. *)
Theorem built_model_feeds_shaper (s21 : list C) (swept_fs : list R)
    (model : list R -> list C) (u l : R)
    (pulse : list C) (time_int : list R) (scaling_limit : R) :
  keeps_length fft -> keeps_length ifft ->
  make_transfer_func CubicSpline s21 swept_fs = Ok (model, u, l) ->
  pulse <> [] -> (2 <= length time_int)%nat ->
  exists out,
    shape_pulse fft ifft pulse time_int model scaling_limit = Ok out /\
    length out = length pulse.
Proof.
  intros Hfft Hifft Hmk Hne Ht.
  destruct (make_transfer_func_inv _ _ _ Hmk) as (S & _ & _ & _ & ->).
  apply shape_pulse_returns; try assumption.
  rewrite full_transfer_func_map, length_map. apply fftfreq_length.
Qed.

(** X7.  When the first sample frequency is positive and the scaling
    limit is not negative, bin 0 of the spectrum that is
    inverse-transformed is 0: the shaped pulse has no DC component. *)
Theorem dc_bin_is_dropped (s21 : list C) (swept_fs : list R)
    (model : list R -> list C) (u l : R)
    (pulse : list C) (time_int : list R) (scaling_limit : R) :
  keeps_length fft ->
  make_transfer_func CubicSpline s21 swept_fs = Ok (model, u, l) ->
  0 < l -> 0 <= scaling_limit ->
  pulse <> [] -> (2 <= length time_int)%nat ->
  exists S,
    shape_pulse fft ifft pulse time_int model scaling_limit = ifft S /\
    length S = length pulse /\ nth 0 S C0 = C0.
Proof.
  intros Hfft Hmk Hl Hlim Hne Ht.
  destruct (make_transfer_func_inv _ _ _ Hmk) as (Sp & _ & _ & _ & ->).
  destruct (Hfft pulse Hne) as (P & HP & HlenP).
  set (freqs := fftfreq (length pulse)
                  (nth 1 time_int 0 - nth 0 time_int 0)).
  set (H := full_transfer_func Sp u l freqs).
  assert (HlenH : length H = length pulse).
  { unfold H. rewrite full_transfer_func_map, length_map.
    apply fftfreq_length. }
  assert (Hpos : (0 < length pulse)%nat)
    by (destruct pulse; [congruence | simpl; lia]).
  exists (ufunc_where Cdiv P H
            (map (fun h => Rgtb (Cabs h) scaling_limit) H) (zeros_like H)).
  split; [|split].
  - apply shape_pulse_spectrum; assumption.
  - rewrite ufunc_where_length; auto; try congruence.
    + rewrite length_map. congruence.
    + unfold zeros_like. rewrite length_map. congruence.
  - rewrite ufunc_where_nth by (try congruence; lia).
    assert (H0 : nth 0 H C0 = C0).
    { unfold H, freqs.
      destruct (fftfreq_head (nth 1 time_int 0 - nth 0 time_int 0) Hpos)
        as [rest ->].
      rewrite full_transfer_func_map. cbn [map nth].
      apply transfer_at_no_dc. exact Hl. }
    rewrite H0, Cabs_0. unfold Rgtb.
    replace (Rltb scaling_limit 0) with false
      by (symmetry; apply Rltb_false; exact Hlim).
    reflexivity.
Qed.

(** X8.  Sent through the channel, the shaped pulse has the spectrum of
    the desired pulse in every bin the channel passes: bin [k] of the
    transform of the result, times the gain [H[k]], is [P[k]] when
    [|H[k]| > scaling_limit], and the bin is 0 otherwise. *)
Theorem channel_is_compensated (pulse : list C) (time_int : list R)
    (transfer_func : list R -> list C) (scaling_limit : R) :
  keeps_length fft -> keeps_length ifft -> inverse_pair ifft fft ->
  pulse <> [] -> (2 <= length time_int)%nat -> 0 < scaling_limit ->
  let H := transfer_func
             (fftfreq (length pulse)
                (nth 1 time_int 0 - nth 0 time_int 0)) in
  length H = length pulse ->
  exists P out Q,
    fft pulse = Ok P /\
    shape_pulse fft ifft pulse time_int transfer_func scaling_limit = Ok out /\
    fft out = Ok Q /\
    forall k, (k < length pulse)%nat ->
      (scaling_limit < Cabs (nth k H C0) ->
       Cmult (nth k Q C0) (nth k H C0) = nth k P C0) /\
      (Cabs (nth k H C0) <= scaling_limit -> nth k Q C0 = C0).
Proof.
  intros Hfft Hifft Hinv Hne Ht Hlim H HlenH.
  destruct (Hfft pulse Hne) as (P & HP & HlenP).
  set (S := ufunc_where Cdiv P H
              (map (fun h => Rgtb (Cabs h) scaling_limit) H) (zeros_like H)).
  assert (HlenS : length S = length P).
  { apply ufunc_where_length.
    - congruence.
    - rewrite length_map. congruence.
    - unfold zeros_like. rewrite length_map. congruence. }
  assert (HS : S <> []).
  { intros E. rewrite E in HlenS. simpl in HlenS.
    destruct pulse; [congruence | simpl in HlenP; lia]. }
  destruct (Hifft S HS) as (out & Hout & _).
  exists P, out, S. split; [exact HP|]. split; [|split].
  - rewrite (@shape_pulse_spectrum fft ifft pulse time_int transfer_func
               scaling_limit P Ht HP HlenP HlenH).
    exact Hout.
  - apply Hinv. exact Hout.
  - intros k Hk. unfold S.
    rewrite ufunc_where_nth by congruence. unfold Rgtb. split.
    + intros Hgt. pose proof (Cabs_gt_nonzero Hlim Hgt) as Hnz.
      apply Rltb_true in Hgt. rewrite Hgt.
      apply Cmult_div_cancel. exact Hnz.
    + intros Hle. apply Rltb_false in Hle. rewrite Hle. reflexivity.
Qed.

(** X9.  When every gain on the grid exceeds the scaling limit, shaping
    is undone by the channel: multiplying the transform of the result by
    the gains and transforming back gives the desired pulse. *)
Theorem channel_restores_pulse (pulse : list C) (time_int : list R)
    (transfer_func : list R -> list C) (scaling_limit : R) :
  keeps_length fft -> keeps_length ifft ->
  inverse_pair fft ifft -> inverse_pair ifft fft ->
  pulse <> [] -> (2 <= length time_int)%nat -> 0 < scaling_limit ->
  let H := transfer_func
             (fftfreq (length pulse)
                (nth 1 time_int 0 - nth 0 time_int 0)) in
  length H = length pulse ->
  Forall (fun h => scaling_limit < Cabs h) H ->
  exists out Q,
    shape_pulse fft ifft pulse time_int transfer_func scaling_limit = Ok out /\
    fft out = Ok Q /\
    ifft (map2 Cmult Q H) = Ok pulse.
Proof.
  intros Hfft Hifft Hinv Hinv' Hne Ht Hlim H HlenH Hall.
  destruct (Hfft pulse Hne) as (P & HP & HlenP).
  set (S := ufunc_where Cdiv P H
              (map (fun h => Rgtb (Cabs h) scaling_limit) H) (zeros_like H)).
  assert (HlenS : length S = length P).
  { apply ufunc_where_length.
    - congruence.
    - rewrite length_map. congruence.
    - unfold zeros_like. rewrite length_map. congruence. }
  assert (HS : S <> []).
  { intros E. rewrite E in HlenS. simpl in HlenS.
    destruct pulse; [congruence | simpl in HlenP; lia]. }
  destruct (Hifft S HS) as (out & Hout & _).
  exists out, S. split; [|split].
  - rewrite (@shape_pulse_spectrum fft ifft pulse time_int transfer_func
               scaling_limit P Ht HP HlenP HlenH).
    exact Hout.
  - apply Hinv'. exact Hout.
  - unfold S. rewrite ufunc_where_all_pass; try assumption.
    + apply Hinv. exact HP.
    + congruence.
Qed.

(** X10.  Whatever the transfer function returns, a result of
    [shape_pulse] for a pulse of at least two samples has the pulse's
    length. *)
Theorem result_has_pulse_length (pulse : list C) (time_int : list R)
    (transfer_func : list R -> list C) (scaling_limit : R) (out : list C) :
  keeps_length fft -> keeps_length ifft ->
  (2 <= length pulse)%nat ->
  shape_pulse fft ifft pulse time_int transfer_func scaling_limit = Ok out ->
  length out = length pulse.
Proof.
  intros Hfft Hifft Hlen Hout.
  destruct (le_lt_dec 2 (length time_int)) as [Ht | Ht].
  - destruct (Nat.eq_dec
                (length (transfer_func
                           (fftfreq (length pulse)
                              (nth 1 time_int 0 - nth 0 time_int 0))))
                (length pulse)) as [E | E].
    + assert (Hp : pulse <> [])
        by (destruct pulse; [simpl in Hlen; lia | discriminate]).
      destruct (@shape_pulse_returns fft ifft pulse time_int transfer_func
                  scaling_limit Hfft Hifft Hp Ht E) as (out' & Hout' & Hl).
      rewrite Hout' in Hout. injection Hout as <-. exact Hl.
    + rewrite (@shape_pulse_mismatch fft ifft pulse time_int transfer_func
                 scaling_limit Hfft Hlen Ht E) in Hout.
      discriminate.
  - rewrite (@shape_pulse_short_axis fft ifft pulse time_int transfer_func
               scaling_limit Ht) in Hout.
    discriminate.
Qed.

(** X11.  For a pulse of at least two samples, a transfer function that
    returns another number of gains than there are bins makes
    [shape_pulse] raise ValueError. *)
Theorem wrong_gain_count_raises (pulse : list C) (time_int : list R)
    (transfer_func : list R -> list C) (scaling_limit : R) :
  keeps_length fft ->
  (2 <= length pulse)%nat -> (2 <= length time_int)%nat ->
  length (transfer_func
            (fftfreq (length pulse)
               (nth 1 time_int 0 - nth 0 time_int 0))) <> length pulse ->
  shape_pulse fft ifft pulse time_int transfer_func scaling_limit
  = Raise ValueError.
Proof.
  intros Hfft Hlen Ht Hne. apply shape_pulse_mismatch; assumption.
Qed.

(** X12.  Shaping is additive in the pulse: for two pulses of one length
    shaped over the same time axis, transfer function and a limit that is
    not negative, every gain that is divided by is non-zero, and the
    shaped sum is the sum of the shaped pulses. *)
Theorem shaping_is_additive (p q : list C) (time_int : list R)
    (transfer_func : list R -> list C) (scaling_limit : R) :
  keeps_length fft -> keeps_length ifft -> additive fft -> additive ifft ->
  0 <= scaling_limit ->
  p <> [] -> length q = length p -> (2 <= length time_int)%nat ->
  length (transfer_func
            (fftfreq (length p)
               (nth 1 time_int 0 - nth 0 time_int 0))) = length p ->
  (forall h,
     In h (transfer_func
             (fftfreq (length p)
                (nth 1 time_int 0 - nth 0 time_int 0))) ->
     scaling_limit < Cabs h -> h <> C0) /\
  exists a b,
    shape_pulse fft ifft p time_int transfer_func scaling_limit = Ok a /\
    shape_pulse fft ifft q time_int transfer_func scaling_limit = Ok b /\
    shape_pulse fft ifft (map2 Cplus p q) time_int transfer_func scaling_limit
    = Ok (map2 Cplus a b).
Proof.
  intros Hfft Hifft Hadd Hiadd Hlim0 Hp Hq Ht HlenH.
  split.
  { intros h _ Hh E. subst h. rewrite Cabs_0 in Hh. lra. }
  assert (Hq' : q <> [])
    by (destruct q; [destruct p; [congruence | discriminate] | discriminate]).
  destruct (Hfft p Hp) as (P & HP & HlenP).
  destruct (Hfft q Hq') as (Q & HQ & HlenQ).
  pose proof (Hadd p q P Q (eq_sym Hq) HP HQ) as HPQ.
  assert (Hpq : length (map2 Cplus p q) = length p)
    by (apply map2_length; exact Hq).
  set (H := transfer_func
              (fftfreq (length p) (nth 1 time_int 0 - nth 0 time_int 0)))
    in *.
  set (mask := map (fun h => Rgtb (Cabs h) scaling_limit) H).
  set (Sp := ufunc_where Cdiv P H mask (zeros_like H)).
  set (Sq := ufunc_where Cdiv Q H mask (zeros_like H)).
  assert (HlenSp : length Sp = length P).
  { apply ufunc_where_length.
    - congruence.
    - unfold mask. rewrite length_map. congruence.
    - unfold zeros_like. rewrite length_map. congruence. }
  assert (HlenSq : length Sq = length Q).
  { apply ufunc_where_length.
    - congruence.
    - unfold mask. rewrite length_map. congruence.
    - unfold zeros_like. rewrite length_map. congruence. }
  assert (HSp : Sp <> []).
  { intros E. rewrite E in HlenSp. simpl in HlenSp.
    destruct p; [congruence | simpl in HlenP; lia]. }
  assert (HSq : Sq <> []).
  { intros E. rewrite E in HlenSq. simpl in HlenSq.
    destruct q; [congruence | simpl in HlenQ; lia]. }
  destruct (Hifft Sp HSp) as (a & Ha & _).
  destruct (Hifft Sq HSq) as (b & Hb & _).
  exists a, b. split; [|split].
  - rewrite (@shape_pulse_spectrum fft ifft p time_int transfer_func
               scaling_limit P Ht HP HlenP HlenH).
    exact Ha.
  - rewrite (@shape_pulse_spectrum fft ifft q time_int transfer_func
               scaling_limit Q Ht HQ HlenQ); rewrite Hq;
      [exact Hb | exact HlenH].
  - assert (HlenPQ : length (map2 Cplus P Q) = length (map2 Cplus p q)).
    { rewrite Hpq. rewrite map2_length; congruence. }
    rewrite (@shape_pulse_spectrum fft ifft (map2 Cplus p q) time_int
               transfer_func scaling_limit (map2 Cplus P Q) Ht HPQ HlenPQ);
      rewrite Hpq; [|exact HlenH].
    fold H. fold mask.
    assert (EQ : length Q = length P) by (rewrite HlenQ, HlenP; exact Hq).
    assert (EH : length H = length P) by (rewrite HlenP; exact HlenH).
    unfold mask. rewrite (@ufunc_where_plus scaling_limit P Q H EQ EH).
    apply Hiadd; [|exact Ha | exact Hb].
    fold mask. fold Sp. fold Sq. rewrite HlenSp, HlenSq. symmetry. exact EQ.
Qed.

(** X13.  A pulse of fewer than two samples with a time axis of the same
    length raises IndexError: the spacing needs two time stamps. *)
Theorem single_sample_raises (pulse : list C) (time_int : list R)
    (transfer_func : list R -> list C) (scaling_limit : R) :
  length time_int = length pulse -> (length pulse < 2)%nat ->
  shape_pulse fft ifft pulse time_int transfer_func scaling_limit
  = Raise IndexError.
Proof.
  intros E H. apply shape_pulse_short_axis. lia.
Qed.

End ShaperOnArbitraryInputs.

(** *** Instances on the reference routines *)

Lemma built_model_feeds_shaper_witness :
  exists out,
    shape_pulse fft_ref ifft_ref [C1; C0; C0] [0; 1; 2]
      (full_transfer_func (interpolant [0; 1] [C1; Ci]) 1 0) (/ 10) = Ok out /\
    length out = 3%nat.
Proof.
  assert (H01 : 0 < 1) by lra.
  assert (Hne : [C1; C0; C0] <> []) by discriminate.
  assert (Ht : (2 <= length [0; 1; 2])%nat) by (simpl; lia).
  exact (@built_model_feeds_shaper fft_ref ifft_ref spline_ref
           [C1; Ci] [0; 1] _ 1 0 [C1; C0; C0] [0; 1; 2] (/ 10)
           fft_ref_keeps_length ifft_ref_keeps_length
           (make_transfer_func_pair C1 Ci H01) Hne Ht).
Defined.

Lemma dc_bin_is_dropped_witness :
  exists S,
    shape_pulse fft_ref ifft_ref [C1; C0; C0] [0; 1; 2]
      (full_transfer_func (interpolant [1; 2] [C1; Ci]) 2 1) (/ 10)
    = ifft_ref S /\
    length S = 3%nat /\ nth 0 S C0 = C0.
Proof.
  assert (H12 : 1 < 2) by lra.
  assert (Hl : 0 < 1) by lra.
  assert (Hlim : 0 <= / 10) by lra.
  assert (Hne : [C1; C0; C0] <> []) by discriminate.
  assert (Ht : (2 <= length [0; 1; 2])%nat) by (simpl; lia).
  exact (@dc_bin_is_dropped fft_ref ifft_ref spline_ref
           [C1; Ci] [1; 2] _ 2 1 [C1; C0; C0] [0; 1; 2] (/ 10)
           fft_ref_keeps_length (make_transfer_func_pair C1 Ci H12)
           Hl Hlim Hne Ht).
Defined.

Lemma channel_is_compensated_witness :
  exists P out Q,
    fft_ref [C1; C0] = Ok P /\
    shape_pulse fft_ref ifft_ref [C1; C0] [0; 1] (map (fun _ => Ci)) (/ 10)
    = Ok out /\
    fft_ref out = Ok Q /\
    forall k, (k < 2)%nat ->
      (/ 10 < Cabs (nth k (map (fun _ => Ci) (fftfreq 2 (1 - 0))) C0) ->
       Cmult (nth k Q C0) (nth k (map (fun _ => Ci) (fftfreq 2 (1 - 0))) C0)
       = nth k P C0) /\
      (Cabs (nth k (map (fun _ => Ci) (fftfreq 2 (1 - 0))) C0) <= / 10 ->
       nth k Q C0 = C0).
Proof.
  assert (Hne : [C1; C0] <> []) by discriminate.
  assert (Ht : (2 <= length [0; 1])%nat) by (simpl; lia).
  assert (Hlim : 0 < / 10) by lra.
  exact (@channel_is_compensated fft_ref ifft_ref [C1; C0] [0; 1]
           (map (fun _ => Ci)) (/ 10)
           fft_ref_keeps_length ifft_ref_keeps_length ifft_ref_inverse
           Hne Ht Hlim eq_refl).
Defined.

Lemma unit_gains_pass (lim : R) (l : list R) :
  lim < 1 -> Forall (fun h => lim < Cabs h) (map (fun _ => C1) l).
Proof.
  intros H. apply Forall_forall. intros h Hin.
  apply in_map_iff in Hin. destruct Hin as (x & <- & _).
  rewrite Cabs_1. exact H.
Qed.

Lemma channel_restores_pulse_witness :
  exists out Q,
    shape_pulse fft_ref ifft_ref [C1; Ci] [0; 1] (map (fun _ => C1)) (/ 10)
    = Ok out /\
    fft_ref out = Ok Q /\
    ifft_ref (map2 Cmult Q (map (fun _ => C1) (fftfreq 2 (1 - 0))))
    = Ok [C1; Ci].
Proof.
  assert (Hne : [C1; Ci] <> []) by discriminate.
  assert (Ht : (2 <= length [0; 1])%nat) by (simpl; lia).
  assert (Hlim : 0 < / 10) by lra.
  assert (Hlim1 : / 10 < 1) by lra.
  exact (@channel_restores_pulse fft_ref ifft_ref [C1; Ci] [0; 1]
           (map (fun _ => C1)) (/ 10)
           fft_ref_keeps_length ifft_ref_keeps_length
           fft_ref_inverse ifft_ref_inverse
           Hne Ht Hlim eq_refl (unit_gains_pass _ Hlim1)).
Defined.

Lemma unit_gain_result :
  shape_pulse fft_ref ifft_ref [C1; C0] [0; 1] (map (fun _ => C1)) (/ 10)
  = Ok [C1; C0].
Proof.
  apply shape_pulse_unit_gain.
  - exact fft_ref_keeps_length.
  - exact fft_ref_inverse.
  - discriminate.
  - simpl; lia.
  - lra.
  - reflexivity.
Qed.

Lemma result_has_pulse_length_witness :
  shape_pulse fft_ref ifft_ref [C1; C0] [0; 1] (map (fun _ => C1)) (/ 10)
  = Ok [C1; C0] /\
  length [C1; C0] = length [C1; C0].
Proof.
  assert (Hlen : (2 <= length [C1; C0])%nat) by (simpl; lia).
  split; [exact unit_gain_result|].
  exact (@result_has_pulse_length fft_ref ifft_ref [C1; C0] [0; 1]
           (map (fun _ => C1)) (/ 10) [C1; C0]
           fft_ref_keeps_length ifft_ref_keeps_length Hlen unit_gain_result).
Defined.

Lemma wrong_gain_count_raises_witness :
  shape_pulse fft_ref ifft_ref [C1; C0] [0; 1] (fun _ => [C1]) (/ 10)
  = Raise ValueError.
Proof.
  assert (Hlen : (2 <= length [C1; C0])%nat) by (simpl; lia).
  assert (Ht : (2 <= length [0; 1])%nat) by (simpl; lia).
  assert (Hne : length [C1] <> length [C1; C0]) by (simpl; lia).
  exact (@wrong_gain_count_raises fft_ref ifft_ref [C1; C0] [0; 1]
           (fun _ => [C1]) (/ 10) fft_ref_keeps_length Hlen Ht Hne).
Defined.

Lemma shaping_is_additive_witness :
  (forall h, In h (map (fun _ => Ci) (fftfreq 2 (1 - 0))) ->
             / 10 < Cabs h -> h <> C0) /\
  exists a b,
    shape_pulse fft_ref ifft_ref [C1; C0] [0; 1] (map (fun _ => Ci)) (/ 10)
    = Ok a /\
    shape_pulse fft_ref ifft_ref [C0; Ci] [0; 1] (map (fun _ => Ci)) (/ 10)
    = Ok b /\
    shape_pulse fft_ref ifft_ref (map2 Cplus [C1; C0] [C0; Ci]) [0; 1]
      (map (fun _ => Ci)) (/ 10)
    = Ok (map2 Cplus a b).
Proof.
  assert (Hne : [C1; C0] <> []) by discriminate.
  assert (Ht : (2 <= length [0; 1])%nat) by (simpl; lia).
  assert (Hlim : 0 <= / 10) by lra.
  exact (@shaping_is_additive fft_ref ifft_ref [C1; C0] [C0; Ci] [0; 1]
           (map (fun _ => Ci)) (/ 10)
           fft_ref_keeps_length ifft_ref_keeps_length
           fft_ref_additive ifft_ref_additive
           Hlim Hne eq_refl Ht eq_refl).
Defined.

Lemma single_sample_raises_witness :
  shape_pulse fft_ref ifft_ref [C1] [0] (map (fun _ => C1)) (/ 10)
  = Raise IndexError.
Proof.
  assert (H : (length [C1] < 2)%nat) by (simpl; lia).
  exact (@single_sample_raises fft_ref ifft_ref [C1] [0]
           (map (fun _ => C1)) (/ 10) eq_refl H).
Defined.

(** ** read_transfer_func *)

Section ReaderProperties.

Variable Network : String.string -> result skrf.Network.
Variable CubicSpline : list R -> list C -> result (R -> C).

(** X14.  [read_transfer_func] raises whatever the touchstone reader
    raises, and raises IndexError for a network of fewer than two
    ports. *)
Theorem reader_errors (filename : String.string) :
  (forall e, Network filename = Raise e ->
             read_transfer_func Network filename = Raise e) /\
  (forall net, Network filename = Ok net ->
               (skrf.nports (skrf.s net) < 2)%nat ->
               read_transfer_func Network filename = Raise IndexError).
Proof.
  split.
  - intros e H. unfold read_transfer_func. rewrite H. reflexivity.
  - intros net H Hp. unfold read_transfer_func, slice_ports.
    rewrite H. cbn [bind].
    replace (1 <? skrf.nports (skrf.s net))%nat with false
      by (symmetry; apply Nat.ltb_ge; lia).
    reflexivity.
Qed.

(** X15.  For a network of at least two ports whose frequency array has
    one entry per measured point, at least two of them and strictly
    increasing, the pair [read_transfer_func] returns is accepted by
    [make_transfer_func]: [s21] holds [S[k][1][0]] for each point [k], has
    the length of the frequency array, and the model is built with the
    last and the first frequency as its limits. *)
Theorem reader_feeds_builder (filename : String.string)
    (net : skrf.Network) :
  accepts_valid CubicSpline ->
  Network filename = Ok net ->
  (2 <= skrf.nports (skrf.s net))%nat ->
  length (skrf.f net) = skrf.nfreq (skrf.s net) ->
  (2 <= skrf.nfreq (skrf.s net))%nat ->
  strictly_increasing (skrf.f net) = true ->
  exists s21 model,
    read_transfer_func Network filename = Ok (s21, skrf.f net) /\
    length s21 = length (skrf.f net) /\
    (forall k, (k < skrf.nfreq (skrf.s net))%nat ->
               nth k s21 C0 = skrf.entry (skrf.s net) k 1 0) /\
    make_transfer_func CubicSpline s21 (skrf.f net) =
      Ok (model, last (skrf.f net) 0, hd 0 (skrf.f net)).
Proof.
  intros Hacc Hnet Hp Hf Hn Hsi.
  set (s21 := map (fun k => skrf.entry (skrf.s net) k 1 0)
                (seq 0 (skrf.nfreq (skrf.s net)))).
  assert (Hlen : length s21 = length (skrf.f net)).
  { unfold s21. rewrite length_map, length_seq. symmetry. exact Hf. }
  assert (Hv : spline_accepts (skrf.f net) s21 = true).
  { apply spline_accepts_spec. repeat split; auto. lia. }
  destruct (Hacc _ _ Hv) as [S HS].
  exists s21, (full_transfer_func S (last (skrf.f net) 0) (hd 0 (skrf.f net))).
  split; [|split; [exact Hlen | split]].
  - unfold read_transfer_func, slice_ports. rewrite Hnet. cbn [bind].
    replace (1 <? skrf.nports (skrf.s net))%nat with true
      by (symmetry; apply Nat.ltb_lt; lia).
    replace (0 <? skrf.nports (skrf.s net))%nat with true
      by (symmetry; apply Nat.ltb_lt; lia).
    reflexivity.
  - intros k Hk. unfold s21.
    exact (@nth_map_seq (fun j => skrf.entry (skrf.s net) j 1 0) _ k Hk).
  - apply make_transfer_func_ok; [exact HS|].
    intros E. rewrite E in Hf. simpl in Hf. lia.
Qed.

End ReaderProperties.

Lemma reader_errors_witness :
  read_transfer_func (Network_ref 1) String.EmptyString = Raise IndexError.
Proof.
  assert (Hp : (skrf.nports (skrf.s (network_ref 1)) < 2)%nat)
    by (simpl; lia).
  exact (proj2 (reader_errors (Network_ref 1) String.EmptyString)
           (network_ref 1) eq_refl Hp).
Defined.

Lemma reader_feeds_builder_witness :
  exists s21 model,
    read_transfer_func (Network_ref 2) String.EmptyString = Ok (s21, [0; 1]) /\
    length s21 = 2%nat /\
    (forall k, (k < 2)%nat -> nth k s21 C0 = C1) /\
    make_transfer_func spline_ref s21 [0; 1] = Ok (model, 1, 0).
Proof.
  assert (Hp : (2 <= skrf.nports (skrf.s (network_ref 2)))%nat)
    by (simpl; lia).
  assert (Hn : (2 <= skrf.nfreq (skrf.s (network_ref 2)))%nat)
    by (simpl; lia).
  assert (Hsi : strictly_increasing (skrf.f (network_ref 2)) = true).
  { cbn [network_ref skrf.f strictly_increasing].
    replace (Rltb 0 1) with true by (symmetry; apply Rltb_true; lra).
    reflexivity. }
  exact (@reader_feeds_builder (Network_ref 2) spline_ref String.EmptyString
           (network_ref 2) spline_ref_accepts eq_refl Hp eq_refl Hn Hsi).
Defined.
